(** * First-rib tubercle recovery: a shallow embedding of
      [Post_Processing/tubercle_recovery.py]

    Volumes are 3-D grids indexed by [(x, y, z)]; floating-point values
    (Hounsfield units, spacings, physical coordinates, fractions) are
    rationals; the SimpleITK filters whose code is outside the repository
    are either written out from their documented behaviour or taken as an
    interface ([SimpleITK] below) whose operations may raise. *)

From Stdlib Require Import ZArith QArith Qround Qabs List Bool Lia String Ascii Permutation.
From Stdlib Require Finite Sorted.
From Stdlib Require Import DecimalString.
From stdpp Require Import base gmap strings.
Import ListNotations.

Local Open Scope Z_scope.

(** ** Scalars *)

(** [int(round(q))] of Python 3: round half to even. *)
Definition py_round (q : Q) : Z :=
  let f := Qfloor q in
  match Qcompare (q - inject_Z f) (1 # 2) with
  | Lt => f
  | Gt => f + 1
  | Eq => if Z.even f then f else f + 1
  end.

(** ITK rounds continuous indices half up. *)
Definition round_half_up (q : Q) : Z := Qfloor (q + (1 # 2)).

Definition Qmax (a b : Q) : Q := if Qle_bool b a then a else b.

(** ** Geometry and images *)

Definition index : Type := Z * Z * Z.
Definition point : Type := Q * Q * Q.

Definition ix (v : index) : Z := fst (fst v).
Definition iy (v : index) : Z := snd (fst v).
Definition iz (v : index) : Z := snd v.

Definition px (p : point) : Q := fst (fst p).
Definition py (p : point) : Q := snd (fst p).
Definition pz (p : point) : Q := snd p.

Definition iadd (v o : index) : index := (ix v + ix o, iy v + iy o, iz v + iz o).
Definition isub (v o : index) : index := (ix v - ix o, iy v - iy o, iz v - iz o).
Definition iscale (k : Z) (d : index) : index := (k * ix d, k * iy d, k * iz d).

Definition index_eqb (a b : index) : bool :=
  (ix a =? ix b) && (iy a =? iy b) && (iz a =? iz b).

Definition mem (v : index) (l : list index) : bool := existsb (index_eqb v) l.

(** Size, spacing and origin of a volume (the direction matrix is the
    identity throughout). *)
Record geometry : Type := Geometry {
  g_size : index;
  g_spacing : point;
  g_origin : point
}.

Record image (A : Type) : Type := Image {
  geom : geometry;
  pix : index -> A
}.
Arguments Image {A} _ _.
Arguments geom {A} _.
Arguments pix {A} _ _.

Definition GetSize {A} (img : image A) : index := g_size (geom img).
Definition GetSpacing {A} (img : image A) : point := g_spacing (geom img).
Definition GetOrigin {A} (img : image A) : point := g_origin (geom img).

Definition inside (sz v : index) : bool :=
  (0 <=? ix v) && (ix v <? ix sz) &&
  (0 <=? iy v) && (iy v <? iy sz) &&
  (0 <=? iz v) && (iz v <? iz sz).

(** Reading a mask voxel; everything outside the buffer is background. *)
Definition vox (img : image Z) (v : index) : Z :=
  if inside (GetSize img) v then pix img v else 0.

Definition range (n : Z) : list Z := map Z.of_nat (seq 0 (Z.to_nat n)).

(** All voxels of a grid in the order of [np.argwhere] on the [(z, y, x)]
    array: z slowest, x fastest. *)
Definition indices (sz : index) : list index :=
  flat_map (fun z =>
    flat_map (fun y => map (fun x => (x, y, z)) (range (ix sz))) (range (iy sz)))
    (range (iz sz)).

(** [arr(img).any()] *)
Definition any (img : image Z) : bool :=
  existsb (fun v => negb (pix img v =? 0)) (indices (GetSize img)).

Definition TransformIndexToPhysicalPoint {A} (img : image A) (v : index) : point :=
  (px (GetOrigin img) + px (GetSpacing img) * inject_Z (ix v),
   py (GetOrigin img) + py (GetSpacing img) * inject_Z (iy v),
   pz (GetOrigin img) + pz (GetSpacing img) * inject_Z (iz v))%Q.

Definition TransformPhysicalPointToIndex {A} (img : image A) (p : point) : index :=
  (round_half_up ((px p - px (GetOrigin img)) / px (GetSpacing img)),
   round_half_up ((py p - py (GetOrigin img)) / py (GetSpacing img)),
   round_half_up ((pz p - pz (GetOrigin img)) / pz (GetSpacing img))).

(** [sitk.Image(size, sitkUInt8)] followed by [CopyInformation(ref)]. *)
Definition zeros_like {A} (ref : image A) : image Z :=
  Image (geom ref) (fun _ => 0).

(** ** Pixel-wise filters *)

(** [to_u8(img) = sitk.Cast(img > 0, sitkUInt8)] on an integer image. *)
Definition to_u8 (img : image Z) : image Z :=
  Image (geom img) (fun v => if 0 <? pix img v then 1 else 0).

Definition le_const (img : image Q) (c : Q) : image Z :=
  Image (geom img) (fun v => if Qle_bool (pix img v) c then 1 else 0).

Definition ge_const (img : image Q) (c : Q) : image Z :=
  Image (geom img) (fun v => if Qle_bool c (pix img v) then 1 else 0).

(** [sitk.And], [sitk.Or]: bitwise on integer pixels. *)
Definition And (a b : image Z) : image Z :=
  Image (geom a) (fun v => Z.land (pix a v) (pix b v)).

Definition Or (a b : image Z) : image Z :=
  Image (geom a) (fun v => Z.lor (pix a v) (pix b v)).

(** [sitk.BinaryThreshold(img, lo, hi, 1, 0)] *)
Definition BinaryThreshold (img : image Z) (lo hi : Z) : image Z :=
  Image (geom img) (fun v => if (lo <=? pix img v) && (pix img v <=? hi) then 1 else 0).

(** [sitk.Mask(img, mask, outsideValue)] *)
Definition Mask (img : image Q) (mask : image Z) (outsideValue : Q) : image Q :=
  Image (geom img) (fun v => if pix mask v =? 0 then outsideValue else pix img v).

(** ** Exceptions *)

Inductive exn : Type :=
| RuntimeError (msg : string).

Inductive result (A : Type) : Type :=
| Ok (a : A)
| Raise (e : exn).
Arguments Ok {A} _.
Arguments Raise {A} _.

Class Monad (M : Type -> Type) : Type := {
  ret : forall {A}, A -> M A;
  bind : forall {A B}, M A -> (A -> M B) -> M B
}.

Declare Scope monad_scope.
Delimit Scope monad_scope with monad.
Notation "x <- c ;; k" := (bind c (fun x => k))
  (at level 100, c at next level, right associativity) : monad_scope.
Notation "c ;;; k" := (bind c (fun _ => k))
  (at level 100, right associativity) : monad_scope.
Local Open Scope monad_scope.

#[export] Instance result_monad : Monad result := {
  ret := fun A a => Ok a;
  bind := fun A B c k => match c with Ok a => k a | Raise e => Raise e end
}.

(** ** The SimpleITK filters taken as given

    Thinning, the signed Maurer distance map and connected-component
    labelling are consumed from the library; each call may raise.  The
    ball structuring element of a given voxel radius is the list of
    offsets it covers. *)
Class SimpleITK : Type := {
  BinaryThinning : image Z -> result (image Z);
  SignedMaurerDistanceMap : image Z -> result (image Q);
  ConnectedComponent : image Z -> result (image Z);
  sitkBall : index -> list index
}.

(** ** Resampling, morphology, region growing *)

(** [resample_like(moving, fixed)]: nearest neighbour, identity transform,
    default pixel value 0. *)
Definition resample_like {A} (moving : image Z) (fixed : image A) : image Z :=
  Image (geom fixed) (fun v =>
    let w := TransformPhysicalPointToIndex moving
               (TransformIndexToPhysicalPoint fixed v) in
    if inside (GetSize moving) w then pix moving w else 0).

(** The dilation of the foreground (value 1) by a kernel, read at [q]. *)
Definition dilated (img : image Z) (kernel : list index) (q : index) : Z :=
  if existsb (fun b => vox img (isub q b) =? 1) kernel then 1 else vox img q.

(** [sitk.BinaryDilate(img, radius)]: ball kernel, foreground 1, the
    boundary counts as background. *)
Definition BinaryDilate `{SimpleITK} (img : image Z) (radius : index) : image Z :=
  Image (geom img) (dilated img (sitkBall radius)).

(** The buffer enlarged by the kernel radius on every side (safe border). *)
Definition in_pad (sz radius v : index) : bool :=
  inside (iadd sz (iscale 2 radius)) (iadd v radius).

(** [sitk.BinaryMorphologicalClosing(img, radius)]: pad by the radius,
    dilate, erode (the boundary of the padded buffer counts as foreground),
    crop. *)
Definition BinaryMorphologicalClosing `{SimpleITK} (img : image Z) (radius : index)
  : image Z :=
  let kernel := sitkBall radius in
  Image (geom img) (fun v =>
    if dilated img kernel v =? 1 then
      if forallb (fun b =>
           let q := iadd v b in
           negb (in_pad (GetSize img) radius q) || (dilated img kernel q =? 1))
           kernel
      then 1 else 0
    else dilated img kernel v).

Definition neighbours6 (v : index) : list index :=
  [iadd v (-1, 0, 0); iadd v (1, 0, 0);
   iadd v (0, -1, 0); iadd v (0, 1, 0);
   iadd v (0, 0, -1); iadd v (0, 0, 1)].

(** One round of the flood per unit of fuel: a voxel stays or enters when
    it passes the test and it or a face neighbour is already reached. *)
Fixpoint flood (fuel : nat) (dom : list index) (ok : index -> bool)
  (cur : list index) : list index :=
  match fuel with
  | O => cur
  | S k =>
      flood k dom ok
        (List.filter (fun v =>
           ok v && (mem v cur || existsb (fun w => mem w cur) (neighbours6 v)))
           dom)
  end.

(** [sitk.ConnectedThreshold(img, seedList, lower, upper)]: the seeds that
    lie in the buffer and in the intensity window, and every voxel joined
    to one of them through face-adjacent voxels in the window, get 1. *)
Definition ConnectedThreshold (img : image Q) (seedList : list index)
  (lower upper : Q) : image Z :=
  let dom := indices (GetSize img) in
  let ok v := Qle_bool lower (pix img v) && Qle_bool (pix img v) upper in
  let start := List.filter (fun v => ok v && mem v seedList) dom in
  let reached := flood (length dom) dom ok start in
  Image (geom img) (fun v => if mem v reached then 1 else 0).

(** ** Label statistics *)

Fixpoint insert_label (L : Z) (ls : list Z) : list Z :=
  match ls with
  | [] => [L]
  | L' :: rest =>
      if L <? L' then L :: ls
      else if L =? L' then ls
      else L' :: insert_label L rest
  end.

(** [LabelShapeStatisticsImageFilter.GetLabels()]: the non-zero labels
    present in the buffer, ascending. *)
Definition GetLabels (cc : image Z) : list Z :=
  fold_right (fun v acc => if pix cc v =? 0 then acc else insert_label (pix cc v) acc)
    [] (indices (GetSize cc)).

Definition label_voxels (cc : image Z) (L : Z) : list index :=
  List.filter (fun v => pix cc v =? L) (indices (GetSize cc)).

Definition Qsum (l : list Q) : Q := fold_right Qplus 0%Q l.

(** x coordinate of [GetCentroid(L)] *)
Definition GetCentroid_x (cc : image Z) (L : Z) : Q :=
  let vs := label_voxels cc L in
  (Qsum (map (fun v => px (TransformIndexToPhysicalPoint cc v)) vs)
   / inject_Z (Z.of_nat (length vs)))%Q.

(** z size of [GetBoundingBox(L)] *)
Definition GetBoundingBox_sz (cc : image Z) (L : Z) : Z :=
  match map iz (label_voxels cc L) with
  | [] => 0
  | z :: zs => fold_right Z.max z zs - fold_right Z.min z zs + 1
  end.

(** ** numpy helpers *)

Fixpoint insert_sorted (x : Q) (l : list Q) : list Q :=
  match l with
  | [] => [x]
  | y :: rest => if Qle_bool x y then x :: l else y :: insert_sorted x rest
  end.

Definition sort_values (l : list Q) : list Q := fold_right insert_sorted [] l.

(** [np.percentile(hu, p)] with the default linear interpolation, for a
    non-empty [hu]. *)
Definition np_percentile (hu : list Q) (p : Q) : Q :=
  let s := sort_values hu in
  let n := Z.of_nat (length s) in
  let h := (inject_Z (n - 1) * p / 100)%Q in
  let lo := Qfloor h in
  let hi := Z.min (lo + 1) (n - 1) in
  let a := nth (Z.to_nat lo) s 0%Q in
  let b := nth (Z.to_nat hi) s 0%Q in
  (a + (b - a) * (h - inject_Z lo))%Q.

(** The indices selected by the Python slice [a[start:stop]] on an axis of
    length [len]. *)
Definition py_slice (start stop len : Z) : list Z :=
  let norm i := if i <? 0 then Z.max (i + len) 0 else Z.min i len in
  map (fun k => norm start + k) (range (norm stop - norm start)).

(** A Python float that may be [nan] (the mean of an empty array). *)
Inductive pyfloat : Type :=
| Finite (q : Q)
| NaN.

(** [a <= c] for a float [a] and a finite [c]; false on [nan]. *)
Definition pyfloat_le (a : pyfloat) (c : Q) : bool :=
  match a with
  | Finite q => Qle_bool q c
  | NaN => false
  end.

(** ** Knobs *)

Definition UPPER_HU : Q := 1200.
Definition NBHD_RADIUS_MM : Q := 12.
Definition NBHD_BONE_HU : Q := 600.
Definition NBHD_BONE_FRAC_LEFT_CUTOFF : Q := 5 # 100.
Definition NBHD_BONE_FRAC_RIGHT_CUTOFF : Q := 5 # 1000.
Definition POSTERIOR_Y_IDX_MIN_FRAC : Q := 55 # 100.
Definition MIDLINE_X_TOL_MM : Q := 50.
Definition PCTL_ROBUST : Q := 40.
Definition LOWER_PCTL_FLOOR_R : Q := 200.
Definition R_RIB_MM_R : Q := 10.
Definition R_TIP_MM_R : Q := 14.
Definition LOWER_HU_RIGHT_MIN : Q := 400.
Definition SPINE_HU : Q := 480.
Definition SPINE_MID_TOL_MM : Q := 20.
Definition SPINE_Z_EXT_MM : Q := 60.
Definition SPINE_CLEAR_MM : Q := 8.
Definition FINAL_CLOSING : index := (8, 0, 8).

(** ** Helpers of the script *)

Definition dist_map_mm `{SimpleITK} (bin_u8 : image Z) : result (image Q) :=
  SignedMaurerDistanceMap bin_u8.

Definition skeleton `{SimpleITK} (bin_u8 : image Z) : result (image Z) :=
  BinaryThinning bin_u8.

(** The 3x3x3 box of offsets, centre included. *)
Definition offsets27 : list index :=
  flat_map (fun dz =>
    flat_map (fun dy => map (fun dx => (dx, dy, dz)) [-1; 0; 1]) [-1; 0; 1])
    [-1; 0; 1].

Definition Zsum (l : list Z) : Z := fold_right Z.add 0 l.

(** [convolve(sk, np.ones((3,3,3), uint8), mode="constant", cval=0)] at one
    voxel, stored back as uint8. *)
Definition convolve_ones (skel : image Z) (v : index) : Z :=
  Zsum (map (fun o => vox skel (iadd v o)) offsets27) mod 256.

Definition endpoints_from_skeleton (skel_u8 : image Z) : list point :=
  let ep v := (pix skel_u8 v =? 1) && (convolve_ones skel_u8 v =? 2) in
  let zyx := List.filter ep (indices (GetSize skel_u8)) in
  map (TransformIndexToPhysicalPoint skel_u8) zyx.

(** [arr(ct)[arr(mask) > 0]] *)
Definition values_in_mask (ct : image Q) (mask_u8 : image Z) : list Q :=
  map (pix ct) (List.filter (fun v => 0 <? pix mask_u8 v) (indices (GetSize ct))).

Definition stats_percentiles_in_mask (ct : image Q) (mask_u8 : image Z)
  (pcts : list Q) : list Q :=
  let hu := values_in_mask ct mask_u8 in
  match hu with
  | [] => map (fun _ => 300%Q) pcts
  | _ => map (np_percentile hu) pcts
  end.

Definition mid_x_phys {A} (ct : image A) : Q :=
  (px (GetOrigin ct) + px (GetSpacing ct) * (inject_Z (ix (GetSize ct)) / 2))%Q.

Definition build_spine_mask `{SimpleITK} (ct : image Q) : result (image Z) :=
  let sp := GetSpacing ct in
  let high := to_u8 (ge_const ct SPINE_HU) in
  if negb (any high) then ret (zeros_like ct)
  else
    cc <- ConnectedComponent high ;;
    let out :=
      fold_left (fun out L =>
        let cx := GetCentroid_x cc L in
        let z_extent_mm := (inject_Z (GetBoundingBox_sz cc L) * pz sp)%Q in
        if Qle_bool (Qabs (cx - mid_x_phys ct)) SPINE_MID_TOL_MM
           && Qle_bool SPINE_Z_EXT_MM z_extent_mm
        then Or out (to_u8 (BinaryThreshold cc L L))
        else out)
        (GetLabels cc) (zeros_like ct) in
    ret (if any out then BinaryDilate out (1, 1, 1) else out).

(** The dense-bone neighbourhood test of the classifier (its second part). *)
Definition neighbourhood_bone_fraction (ct : image Q) (ribs_u8 : image Z)
  (idx : index) (nbhd_mm bone_hu : Q) : pyfloat :=
  let sp := GetSpacing ct in
  let '(X, Y, Zs) := GetSize ct in
  let rx := Z.max 1 (py_round (nbhd_mm / px sp)) in
  let ry := Z.max 1 (py_round (nbhd_mm / py sp)) in
  let rz := Z.max 1 (py_round (nbhd_mm / pz sp)) in
  let x0 := Z.max 0 (ix idx - rx) in let x1 := Z.min (X - 1) (ix idx + rx) in
  let y0 := Z.max 0 (iy idx - ry) in let y1 := Z.min (Y - 1) (iy idx + ry) in
  let z0 := Z.max 0 (iz idx - rz) in let z1 := Z.min (Zs - 1) (iz idx + rz) in
  let roi :=
    flat_map (fun z =>
      flat_map (fun y => map (fun x => (x, y, z)) (py_slice x0 (x1 + 1) X))
        (py_slice y0 (y1 + 1) Y))
      (py_slice z0 (z1 + 1) Zs) in
  let other_bone v := Qle_bool bone_hu (pix ct v) && (pix ribs_u8 v =? 0) in
  match roi with
  | [] => NaN
  | _ => Finite (inject_Z (Z.of_nat (length (List.filter other_bone roi)))
                 / inject_Z (Z.of_nat (length roi)))
  end.

(** The anatomical position check of the classifier (its first part). *)
Definition anatomical_gate (ct : image Q) (ep_phys : point) (y_frac_min x_tol_mm : Q)
  : bool :=
  let idx := TransformPhysicalPointToIndex ct ep_phys in
  let mid_y_idx := (inject_Z (iy (GetSize ct)) * y_frac_min)%Q in
  let is_posterior_y := Qle_bool mid_y_idx (inject_Z (iy idx)) in
  let is_near_midline_x := Qle_bool (Qabs (px ep_phys - mid_x_phys ct)) x_tol_mm in
  is_posterior_y && is_near_midline_x.

Definition endpoint_is_posterior_missing_tubercle (ct : image Q) (ribs_u8 : image Z)
  (ep_phys : point) (nbhd_mm bone_hu y_frac_min x_tol_mm : Q) : pyfloat :=
  if negb (anatomical_gate ct ep_phys y_frac_min x_tol_mm) then Finite 1
  else neighbourhood_bone_fraction ct ribs_u8
         (TransformPhysicalPointToIndex ct ep_phys) nbhd_mm bone_hu.

(** The seed image of the endpoint sphere and its voxel radii. *)
Definition seed_image (ribs_u8 : image Z) (center_idx : index) : image Z :=
  if inside (GetSize ribs_u8) center_idx
  then Image (geom ribs_u8) (fun v => if index_eqb v center_idx then 1 else 0)
  else zeros_like ribs_u8.

Definition tip_radius (ribs_u8 : image Z) (r_tip_mm : Q) : index :=
  let sp := GetSpacing ribs_u8 in
  (Z.max 1 (py_round (r_tip_mm / px sp)),
   Z.max 1 (py_round (r_tip_mm / py sp)),
   Z.max 1 (py_round (r_tip_mm / pz sp))).

Definition corridor_for_tip `{SimpleITK} (ribs_u8 spine_u8 : image Z)
  (ep_phys : point) (r_rib_mm r_tip_mm : Q) : result (image Z) :=
  d_rib <- dist_map_mm ribs_u8 ;;
  let near_rib := to_u8 (le_const d_rib r_rib_mm) in
  let center_idx := TransformPhysicalPointToIndex ribs_u8 ep_phys in
  let sphere := BinaryDilate (seed_image ribs_u8 center_idx)
                  (tip_radius ribs_u8 r_tip_mm) in
  let cor := And near_rib sphere in
  if any spine_u8 then
    d_spine <- dist_map_mm spine_u8 ;;
    let spine_clear := to_u8 (ge_const d_spine SPINE_CLEAR_MM) in
    ret (And cor spine_clear)
  else ret cor.

Definition region_grow_local (ct : image Q) (seeds_phys : list point) (lo hi : Q)
  (corridor_u8 : image Z) : image Z :=
  match seeds_phys with
  | [] => zeros_like ct
  | _ =>
      let ct_masked := Mask ct corridor_u8 (-2000) in
      let seed_idx := map (TransformPhysicalPointToIndex ct) seeds_phys in
      to_u8 (ConnectedThreshold ct_masked seed_idx lo hi)
  end.

Definition keep_growth_touching_rib `{SimpleITK} (grow_u8 rib_u8 : image Z)
  : result (image Z) :=
  if negb (any grow_u8) then ret grow_u8
  else
    let rib_d := BinaryDilate rib_u8 (1, 1, 1) in
    cc <- ConnectedComponent grow_u8 ;;
    ret (fold_left (fun out L =>
           let comp := to_u8 (BinaryThreshold cc L L) in
           if any (And comp rib_d) then Or out comp else out)
           (GetLabels cc) (zeros_like grow_u8)).

(** ** File names *)

(** [needle in hay] *)
Fixpoint contains (needle hay : string) : bool :=
  String.prefix needle hay ||
  match hay with
  | EmptyString => false
  | String _ rest => contains needle rest
  end.

Fixpoint drop_chars (n : nat) (s : string) : string :=
  match n, s with
  | O, _ => s
  | S k, String _ rest => drop_chars k rest
  | S _, EmptyString => EmptyString
  end.

(** [s.replace(old, "")] for a non-empty [old]: occurrences are removed
    left to right, without overlap. *)
Fixpoint remove_all (fuel : nat) (old s : string) : string :=
  match fuel with
  | O => s
  | S k =>
      if String.prefix old s then remove_all k old (drop_chars (String.length old) s)
      else match s with
           | EmptyString => EmptyString
           | String c rest => String c (remove_all k old rest)
           end
  end.

Definition replace_with_empty (old s : string) : string :=
  remove_all (S (String.length s)) old s.

(** [os.path.basename]: what follows the last slash. *)
Fixpoint basename_aux (s acc : string) : string :=
  match s with
  | EmptyString => acc
  | String c rest =>
      if Ascii.eqb c "/"%char then basename_aux rest rest
      else basename_aux rest acc
  end.

Definition basename (p : string) : string := basename_aux p p.

Fixpoint ends_with_slash (s : string) : bool :=
  match s with
  | EmptyString => false
  | String c EmptyString => Ascii.eqb c "/"%char
  | String _ rest => ends_with_slash rest
  end.

(** [os.path.join(a, b)] *)
Definition path_join (a b : string) : string :=
  if String.prefix "/" b then b
  else if String.eqb a "" || ends_with_slash a then a +:+ b
  else a +:+ "/" +:+ b.

Fixpoint insert_path (p : string) (l : list string) : list string :=
  match l with
  | [] => [p]
  | q :: rest => if String.leb p q then p :: l else q :: insert_path p rest
  end.

(** [sorted(rib_files)] *)
Definition sorted (l : list string) : list string := fold_right insert_path [] l.

(** ** The world: files on disk and the lines printed *)

Inductive log_line : Type :=
| InfoEndpoints (rib_filename side_tag : string) (n_endpoints : nat)
    (active_cutoff : Q) (n_candidates : nat)
| SkipNoCandidates
| InfoGrowth (lower_hu : Q) (n_candidates : nat)
| OkSaved (out_path : string)
| ErrorLine (subj base : string) (e : exn).

Record world : Type := World {
  files : gmap string (image Z);
  stdout : list log_line
}.

Definition io (A : Type) : Type := world -> result A * world.

#[export] Instance io_monad : Monad io := {
  ret := fun A a w => (Ok a, w);
  bind := fun A B c k w =>
    match c w with
    | (Ok a, w') => k a w'
    | (Raise e, w') => (Raise e, w')
    end
}.

Definition lift {A} (r : result A) : io A := fun w => (r, w).

Definition print (l : log_line) : io unit :=
  fun w => (Ok tt, World (files w) (stdout w ++ [l])).

Definition read_img (p : string) : io (image Z) :=
  fun w =>
    match files w !! p with
    | Some img => (Ok img, w)
    | None => (Raise (RuntimeError "unable to read image"), w)
    end.

Definition write_img (img : image Z) (p : string) : io unit :=
  fun w => (Ok tt, World (<[p := img]> (files w)) (stdout w)).

(** ** The repair of one rib *)

(** The side-specific cutoff, tag and intensity floor. *)
Definition side_selection (rib_filename : string) : Q * string * Q :=
  if contains "rib_right_1" rib_filename
  then (NBHD_BONE_FRAC_RIGHT_CUTOFF, "Right", LOWER_HU_RIGHT_MIN)
  else (NBHD_BONE_FRAC_LEFT_CUTOFF, "Left", LOWER_PCTL_FLOOR_R).

(** The candidates kept by the hard cutoff, with their fractions. *)
Definition growth_candidates_of (ct : image Q) (rib : image Z)
  (endpoints : list point) (active_cutoff : Q) : list (point * pyfloat) :=
  List.filter (fun c => pyfloat_le (snd c) active_cutoff)
    (map (fun ep =>
       (ep, endpoint_is_posterior_missing_tubercle ct rib ep
              NBHD_RADIUS_MM NBHD_BONE_HU POSTERIOR_Y_IDX_MIN_FRAC MIDLINE_X_TOL_MM))
       endpoints).

Definition lower_hu_of (ct : image Q) (rib : image Z) (target_hu_floor : Q) : Q :=
  let pctl_val := hd 0%Q (stats_percentiles_in_mask ct rib [PCTL_ROBUST; 0%Q]) in
  Qmax pctl_val target_hu_floor.

(** The body of the growth loop for one candidate. *)
Definition grow_endpoint `{SimpleITK} (ct : image Q) (rib spine : image Z)
  (lower_hu : Q) (ep : point) : result (image Z) :=
  corridor <- corridor_for_tip rib spine ep R_RIB_MM_R R_TIP_MM_R ;;
  let growth := region_grow_local ct [ep] lower_hu UPPER_HU corridor in
  keep_growth_touching_rib growth rib.

Fixpoint grow_each `{SimpleITK} (ct : image Q) (rib spine : image Z)
  (lower_hu : Q) (candidates : list (point * pyfloat)) (grow_union : image Z)
  : result (image Z) :=
  match candidates with
  | [] => ret grow_union
  | (ep, _) :: rest =>
      growth <- grow_endpoint ct rib spine lower_hu ep ;;
      grow_each ct rib spine lower_hu rest (Or grow_union growth)
  end.

Definition repair_first_rib `{SimpleITK} (ct : image Q) (rib_path out_path : string)
  : io unit :=
  rib_raw <- read_img rib_path ;;
  let rib := to_u8 (resample_like (to_u8 rib_raw) ct) in
  spine <- lift (build_spine_mask ct) ;;
  let rib_filename := basename rib_path in
  let '(active_cutoff, side_tag, target_hu_floor) := side_selection rib_filename in
  skel <- lift (skeleton rib) ;;
  let endpoints := endpoints_from_skeleton skel in
  let growth_candidates := growth_candidates_of ct rib endpoints active_cutoff in
  print (InfoEndpoints rib_filename side_tag (length endpoints) active_cutoff
           (length growth_candidates)) ;;;
  match growth_candidates with
  | [] =>
      print SkipNoCandidates ;;;
      write_img rib_raw out_path
  | _ =>
      let grow_union := zeros_like ct in
      let lower_hu := lower_hu_of ct rib target_hu_floor in
      print (InfoGrowth lower_hu (length growth_candidates)) ;;;
      grow_union <- lift (grow_each ct rib spine lower_hu growth_candidates grow_union) ;;
      let pre := Or rib grow_union in
      let refined := BinaryMorphologicalClosing pre FINAL_CLOSING in
      let refined_out := resample_like refined rib_raw in
      write_img refined_out out_path ;;;
      print (OkSaved out_path)
  end.

(** ** The driver's loop over the ribs of one subject *)

Definition out_path_of (out_dir subj rib_path : string) : string * string :=
  let base := replace_with_empty ".nii" (replace_with_empty ".nii.gz" (basename rib_path)) in
  (base, path_join out_dir (subj +:+ "_" +:+ base +:+ "_postprocessed.nii.gz")).

(** [try: repair_first_rib(...) except Exception as e: print(...)] *)
Definition try_repair `{SimpleITK} (ct : image Q) (out_dir subj rib_path : string)
  (w : world) : world :=
  let '(base, out_path) := out_path_of out_dir subj rib_path in
  match repair_first_rib ct rib_path out_path w with
  | (Ok _, w') => w'
  | (Raise e, w') => snd (print (ErrorLine subj base e) w')
  end.

Definition repair_all `{SimpleITK} (ct : image Q) (out_dir subj : string)
  (rib_files : list string) (w : world) : world :=
  fold_left (fun w rib_path => try_repair ct out_dir subj rib_path w)
    (sorted rib_files) w.

(** ** File matching of the driver *)

Definition lower_char (c : ascii) : ascii :=
  let n := nat_of_ascii c in
  if (65 <=? n)%nat && (n <=? 90)%nat then ascii_of_nat (n + 32) else c.

Fixpoint lower (s : string) : string :=
  match s with
  | EmptyString => EmptyString
  | String c rest => String (lower_char c) (lower rest)
  end.

Fixpoint endswith (s suffix : string) : bool :=
  String.eqb s suffix ||
  match s with
  | EmptyString => false
  | String _ rest => endswith rest suffix
  end.

Definition take_chars (n : nat) (s : string) : string := String.substring 0 n s.

Definition stem_no_ext (filename : string) : string :=
  let f := lower filename in
  if endswith f ".nii.gz" then take_chars (String.length f - 7) f
  else if endswith f ".nii" then take_chars (String.length f - 4) f
  else f.

(** The strings matched by [^rib[-_](left|right)[-_]0?1$] ([$] also
    matches before a final newline). *)
Definition STEM_RE_language : list string :=
  flat_map (fun sep1 =>
    flat_map (fun side =>
      flat_map (fun sep2 =>
        flat_map (fun zero =>
          map (fun nl => "rib" +:+ sep1 +:+ side +:+ sep2 +:+ zero +:+ "1" +:+ nl)
            [""; String (ascii_of_nat 10) ""])
          [""; "0"])
        ["-"; "_"])
      ["left"; "right"])
    ["-"; "_"].

Definition STEM_RE_match (s : string) : bool :=
  existsb (String.eqb (lower s)) STEM_RE_language.

(** The test [list_first_ribs] applies to each file name. *)
Definition is_first_rib_file (f : string) : bool :=
  let lf := lower f in
  (endswith lf ".nii" || endswith lf ".nii.gz") && STEM_RE_match (stem_no_ext lf).

(** ** Vocabulary of the statements *)

(** The 26 offsets around a voxel. *)
Definition offsets26 : list index :=
  List.filter (fun o => negb (index_eqb o (0, 0, 0))) offsets27.

Definition neighbours26 (v : index) : list index := map (iadd v) offsets26.

(** How many voxels of the 26-neighbourhood of [v] belong to the skeleton. *)
Definition skeleton_neighbours (skel : image Z) (v : index) : nat :=
  length (List.filter (fun w => negb (vox skel w =? 0)) (neighbours26 v)).

(** Every voxel of the buffer is 0 or 1. *)
Definition is_binary (img : image Z) : bool :=
  forallb (fun v => (pix img v =? 0) || (pix img v =? 1)) (indices (GetSize img)).

(** The digital segment [p0, p0 + d, ..., p0 + (n-1) d]. *)
Definition line_voxels (p0 d : index) (n : Z) : list index :=
  map (fun i => iadd p0 (iscale i d)) (range n).

Definition line_image (g : geometry) (p0 d : index) (n : Z) : image Z :=
  Image g (fun v => if mem v (line_voxels p0 d n) then 1 else 0).

(** [needle] occurs in [hay]. *)
Definition is_substring (needle hay : string) : Prop :=
  exists pre post : string, hay = pre +:+ needle +:+ post.

(** Python's [==] on floats. *)
Definition pyfloat_eqb (a b : pyfloat) : bool :=
  match a, b with
  | Finite p, Finite q => Qeq_bool p q
  | _, _ => false
  end.

(** The classifier with the knobs of the script. *)
Definition classify (ct : image Q) (rib : image Z) (ep : point) : pyfloat :=
  endpoint_is_posterior_missing_tubercle ct rib ep
    NBHD_RADIUS_MM NBHD_BONE_HU POSTERIOR_Y_IDX_MIN_FRAC MIDLINE_X_TOL_MM.

Definition eligible (ct : image Q) (ep : point) : bool :=
  anatomical_gate ct ep POSTERIOR_Y_IDX_MIN_FRAC MIDLINE_X_TOL_MM.

(** The contamination fraction of an endpoint. *)
Definition contamination (ct : image Q) (rib : image Z) (ep : point) : pyfloat :=
  neighbourhood_bone_fraction ct rib (TransformPhysicalPointToIndex ct ep)
    NBHD_RADIUS_MM NBHD_BONE_HU.

(** ** Synthetic volumes used in the examples *)

(** A 5 x 7 x 2 grid with 6 x 6 x 12 mm voxels: the neighbourhood of the
    voxel (2, 4, 0) is the 5 x 5 x 2 block of 50 voxels with y from 2 to 6. *)
Definition block_geometry : geometry :=
  Geometry (5, 7, 2) (6, 6, 12)%Q (0, 0, 0)%Q.


(** Dense bone everywhere. *)
Definition ct_all_dense : image Q := Image block_geometry (fun _ => 700%Q).


Definition rib_none : image Z := Image block_geometry (fun _ => 0).

(** Physical points of the voxels (2, 4, 0), posterior, and (2, 0, 0),
    anterior. *)
Definition ep_posterior : point := (12, 24, 0)%Q.
Definition ep_anterior : point := (12, 0, 0)%Q.

(** ** Reference filters for small volumes

    Used to run the script on synthetic volumes.  The ball is ITK's
    ellipsoid with axes [2 r + 1]; labelling is by flood fill in raster
    order; thinning leaves a segment that is already one voxel thin as it
    is; the distance map is the distance along the axis of a volume that
    is one voxel wide in the other two directions, 0 on the object. *)

Definition between (lo hi : Z) : list Z := map (fun k => lo + k) (range (hi - lo + 1)).

Definition ellipsoid_ball (radius : index) : list index :=
  let sq (b r : Z) : Q :=
    let t := (inject_Z b / (inject_Z r + (1 # 2)))%Q in (t * t)%Q in
  List.filter (fun b =>
      Qle_bool (sq (ix b) (ix radius) + sq (iy b) (iy radius) + sq (iz b) (iz radius)) 1)
    (flat_map (fun z =>
       flat_map (fun y => map (fun x => (x, y, z)) (between (- ix radius) (ix radius)))
         (between (- iy radius) (iy radius)))
       (between (- iz radius) (iz radius))).

(** The face-connected components of the non-zero voxels, in raster order
    of their first voxel. *)
Fixpoint scan_components (todo dom : list index) (fg : index -> bool)
  (found : list (list index)) : list (list index) :=
  match todo with
  | [] => found
  | p :: rest =>
      if fg p && negb (existsb (mem p) found)
      then scan_components rest dom fg (found ++ [flood (length dom) dom fg [p]])
      else scan_components rest dom fg found
  end.

Fixpoint label_in (v : index) (comps : list (list index)) (L : Z) : Z :=
  match comps with
  | [] => 0
  | c :: rest => if mem v c then L else label_in v rest (L + 1)
  end.

Definition flood_label (img : image Z) : image Z :=
  let dom := indices (GetSize img) in
  let comps := scan_components dom dom (fun v => negb (pix img v =? 0)) [] in
  Image (geom img) (fun v => label_in v comps 1).

Definition Qmin_list (l : list Q) (d : Q) : Q :=
  fold_right (fun a m => if Qle_bool a m then a else m) d l.

Definition axis_distance (img : image Z) : image Q :=
  let sp := GetSpacing img in
  let object := List.filter (fun w => negb (pix img w =? 0)) (indices (GetSize img)) in
  Image (geom img) (fun v =>
    match object with
    | [] => 0%Q
    | w0 :: _ =>
        let dist w :=
          (px sp * inject_Z (Z.abs (ix v - ix w)) +
           py sp * inject_Z (Z.abs (iy v - iy w)) +
           pz sp * inject_Z (Z.abs (iz v - iz w)))%Q in
        Qmin_list (map dist object) (dist w0)
    end).

Definition small_volume_filters : SimpleITK := {|
  BinaryThinning := fun img => Ok img;
  SignedMaurerDistanceMap := fun img => Ok (axis_distance img);
  ConnectedComponent := fun img => Ok (flood_label img);
  sitkBall := ellipsoid_ball
|}.

(** The same filters with a distance map that raises. *)
Definition filters_distance_raises : SimpleITK := {|
  BinaryThinning := fun img => Ok img;
  SignedMaurerDistanceMap := fun _ => Raise (RuntimeError "distance map failed");
  ConnectedComponent := fun img => Ok (flood_label img);
  sitkBall := ellipsoid_ball
|}.

(** A column of four 7 mm voxels along y; the CT holds bone-like values
    (300 HU) at y = 1, 2, 3 and the rib mask covers y = 2, 3. *)
Definition column_geometry : geometry :=
  Geometry (1, 4, 1) (7, 7, 7)%Q (0, 0, 0)%Q.

Definition ct_column : image Q :=
  Image column_geometry (fun v => if 1 <=? iy v then 300%Q else 0%Q).

Definition rib_column : image Z :=
  Image column_geometry (fun v => if 2 <=? iy v then 1 else 0).

(** A rib file on a longer column (five voxels), covering y = 2, 3, 4. *)
Definition rib_file_long : image Z :=
  Image (Geometry (1, 5, 1) (7, 7, 7)%Q (0, 0, 0)%Q)
        (fun v => if 2 <=? iy v then 1 else 0).

(** Two voxels side by side in the posterior row of a 2 x 4 x 1 slab of
    soft tissue: both are endpoints and both pass the classifier. *)
Definition slab_geometry : geometry :=
  Geometry (2, 4, 1) (7, 7, 7)%Q (0, 0, 0)%Q.

Definition ct_slab : image Q := Image slab_geometry (fun _ => 0%Q).

Definition rib_slab : image Z :=
  Image slab_geometry (fun v => if iy v =? 3 then 1 else 0).

(** A grown mask on the column with two separate voxels, y = 0 and y = 2. *)
Definition grow_two_blobs : image Z :=
  Image column_geometry (fun v => if (iy v =? 0) || (iy v =? 2) then 1 else 0).

(** The rib mask in the geometry of the CT, and the mask written when
    growth took place. *)
Definition rib_in_ct (ct : image Q) (rib_raw : image Z) : image Z :=
  to_u8 (resample_like (to_u8 rib_raw) ct).

Definition written_on_success `{SimpleITK} (ct : image Q) (rib_raw grow_union : image Z)
  : image Z :=
  resample_like
    (BinaryMorphologicalClosing (Or (rib_in_ct ct rib_raw) grow_union) FINAL_CLOSING)
    rib_raw.

(** A rib mask on the anterior half of the column (y = 0, 1). *)
Definition rib_anterior : image Z :=
  Image column_geometry (fun v => if iy v <=? 1 then 1 else 0).

(** Every voxel, in the buffer or not, is 0 or 1. *)
Definition everywhere_binary (img : image Z) : Prop :=
  forall v, pix img v = 0 \/ pix img v = 1.



(** The test applied to a labelled component in [build_spine_mask]: its
    centroid is near the midline in x and its bounding box is tall in z. *)
Definition spine_label_qualifies (ct : image Q) (cc : image Z) (L : Z) : bool :=
  Qle_bool (Qabs (GetCentroid_x cc L - mid_x_phys ct)) SPINE_MID_TOL_MM
  && Qle_bool SPINE_Z_EXT_MM (inject_Z (GetBoundingBox_sz cc L) * pz (GetSpacing ct))%Q.

(** A column of six dense voxels along z, 12 mm each. *)
Definition ct_tall_column : image Q :=
  Image (Geometry (1, 1, 6) (7, 7, 12)%Q (0, 0, 0)%Q) (fun _ => 700%Q).

(** [c in s] for a character. *)
Fixpoint has_char (c : ascii) (s : string) : bool :=
  match s with
  | EmptyString => false
  | String a rest => Ascii.eqb a c || has_char c rest
  end.

(** ** The rib loop of the pipeline (ribcage_pipeline.py)

    The pipeline calls [repair_first_rib] on the two first ribs of a subject
    and copies the other ribs.  The segmentation files are the integer
    images of one store; the CT is read through [sitk.ReadImage] at each
    first rib, and the loop does not write CT volumes, so what a path reads
    as a volume does not change during the loop. *)

Class VolumeReader : Type := {
  ReadImage : string -> result (image Q)
}.

Inductive pipeline_exn : Type :=
| Raised (e : exn)
| FileNotFoundError (path : string)
| SameFileError (src dst : string).

Inductive pipeline_line : Type :=
| FromRepair (l : log_line)
| ProcessingFirstRib (rib_path : string)
| SavedRepairedFirstRib (output_path : string)
| ProcessedFirstRib (rib_filename : string)
| ErrorProcessingFirstRib (rib_filename : string) (e : pipeline_exn)
| CopiedOriginalFirstRib (rib_filename : string)
| WarningRibNotFound (rib_path : string)
| CopiedRib (rib_filename : string)
| ErrorCopyingRib (rib_filename : string) (e : pipeline_exn)
| CopiedAdditionalFile (filename : string)
| ErrorCopyingFile (filename : string) (e : pipeline_exn).

Record pipeline_state : Type := PipelineState {
  seg_files : gmap string (image Z);
  console : list pipeline_line
}.

Definition pio (A : Type) : Type :=
  pipeline_state -> (A + pipeline_exn) * pipeline_state.

#[export] Instance pio_monad : Monad pio := {
  ret := fun A a s => (inl a, s);
  bind := fun A B c k s =>
    match c s with
    | (inl a, s') => k a s'
    | (inr e, s') => (inr e, s')
    end
}.

(** [try: body except Exception as e: handler(e)] *)
Definition try_except {A} (body : pio A) (handler : pipeline_exn -> pio A) : pio A :=
  fun s =>
    match body s with
    | (inl a, s') => (inl a, s')
    | (inr e, s') => handler e s'
    end.

Fixpoint for_each {A} (l : list A) (body : A -> pio unit) : pio unit :=
  match l with
  | [] => ret tt
  | a :: rest => body a ;;; for_each rest body
  end.

Definition say (l : pipeline_line) : pio unit :=
  fun s => (inl tt, PipelineState (seg_files s) (console s ++ [l])).

Definition path_exists (p : string) : pio bool :=
  fun s => (inl (match seg_files s !! p with Some _ => true | None => false end), s).

(** [sitk.ReadImage(ct_path)] *)
Definition read_volume `{VolumeReader} (ct_path : string) : pio (image Q) :=
  fun s =>
    match ReadImage ct_path with
    | Ok ct => (inl ct, s)
    | Raise e => (inr (Raised e), s)
    end.

(** The call of [repair_first_rib] from the pipeline: it works on the same
    files, and its lines go to the same console. *)
Definition call_repair_first_rib `{SimpleITK} (ct : image Q) (rib_path out_path : string)
  : pio unit :=
  fun s =>
    let '(r, w) := repair_first_rib ct rib_path out_path (World (seg_files s) []) in
    let s' := PipelineState (files w) (console s ++ map FromRepair (stdout w)) in
    match r with
    | Ok _ => (inl tt, s')
    | Raise e => (inr (Raised e), s')
    end.

(** [shutil.copy2(src, dst)] between files. *)
Definition copy2 (src dst : string) : pio unit :=
  fun s =>
    match seg_files s !! src with
    | None => (inr (FileNotFoundError src), s)
    | Some img =>
        if String.eqb src dst then (inr (SameFileError src dst), s)
        else (inl tt, PipelineState (<[dst := img]> (seg_files s)) (console s))
    end.

Definition process_first_rib `{SimpleITK} `{VolumeReader}
  (ct_path rib_path output_path : string) : pio string :=
  say (ProcessingFirstRib rib_path) ;;;
  ct <- read_volume ct_path ;;
  call_repair_first_rib ct rib_path output_path ;;;
  say (SavedRepairedFirstRib output_path) ;;;
  ret output_path.

(** [f"rib_{side}_{rib_num}.nii.gz"] *)
Definition rib_filename_of (side : string) (rib_num : nat) : string :=
  "rib_" +:+ side +:+ "_" +:+ NilEmpty.string_of_uint (Nat.to_uint rib_num) +:+ ".nii.gz".

(** The body of the loop over the ribs in [run_pipeline_single_subject]. *)
Definition rib_step `{SimpleITK} `{VolumeReader}
  (ct_path segmentation_dir output_dir side : string) (rib_num : nat) : pio unit :=
  let rib_filename := rib_filename_of side rib_num in
  let rib_path := path_join segmentation_dir rib_filename in
  found <- path_exists rib_path ;;
  if negb found then say (WarningRibNotFound rib_path)
  else
    let rib_output := path_join output_dir rib_filename in
    if (rib_num =? 1)%nat then
      try_except
        (process_first_rib ct_path rib_path rib_output ;;;
         say (ProcessedFirstRib rib_filename))
        (fun e =>
           say (ErrorProcessingFirstRib rib_filename e) ;;;
           copy2 rib_path rib_output ;;;
           say (CopiedOriginalFirstRib rib_filename))
    else
      try_except
        (copy2 rib_path rib_output ;;; say (CopiedRib rib_filename))
        (fun e => say (ErrorCopyingRib rib_filename e)).

(** [for side in ["left", "right"]: for rib_num in range(1, 13): ...] *)
Definition process_ribs `{SimpleITK} `{VolumeReader}
  (ct_path segmentation_dir output_dir : string) : pio unit :=
  for_each ["left"; "right"]%string (fun side =>
    for_each (seq 1 12) (fun rib_num =>
      rib_step ct_path segmentation_dir output_dir side rib_num)).

(** The last loop of [run_pipeline_single_subject], over the names
    [os.listdir(segmentation_dir)] returned: the other segmentations are
    copied, unless the output is already there. *)
Definition is_other_segmentation (filename : string) : bool :=
  endswith filename ".nii.gz" &&
  negb (String.prefix "rib_" filename || String.eqb filename "sternum.nii.gz").

Definition copy_other_file (segmentation_dir output_dir filename : string) : pio unit :=
  if is_other_segmentation filename then
    let src_path := path_join segmentation_dir filename in
    let dst_path := path_join output_dir filename in
    found <- path_exists dst_path ;;
    if negb found then
      try_except
        (copy2 src_path dst_path ;;; say (CopiedAdditionalFile filename))
        (fun e => say (ErrorCopyingFile filename e))
    else ret tt
  else ret tt.

Definition copy_other_files (segmentation_dir output_dir : string)
  (listing : list string) : pio unit :=
  for_each listing (copy_other_file segmentation_dir output_dir).




Definition no_volume_on_disk : VolumeReader := {|
  ReadImage := fun _ => Raise (RuntimeError "unable to read image")
|}.

(** * Properties *)

(** ** Grids *)

Lemma index_eqb_eq (a b : index) : index_eqb a b = true <-> a = b.
Proof.
  destruct a as [[ax ay] az], b as [[bx by'] bz]; unfold index_eqb, ix, iy, iz; simpl.
  split.
  - intros H. apply andb_true_iff in H. destruct H as [H Hz].
    apply andb_true_iff in H. destruct H as [Hx Hy].
    apply Z.eqb_eq in Hx, Hy, Hz. subst; reflexivity.
  - intros E; inversion E; subst. rewrite !Z.eqb_refl. reflexivity.
Qed.

Lemma index_eqb_refl (a : index) : index_eqb a a = true.
Proof. apply index_eqb_eq; reflexivity. Qed.

Lemma mem_In (v : index) (l : list index) : mem v l = true <-> In v l.
Proof.
  unfold mem. rewrite existsb_exists. split.
  - intros [x [Hx E]]. apply index_eqb_eq in E. subst; assumption.
  - intros H. exists v. split; [assumption | apply index_eqb_refl].
Qed.

Lemma In_range (n k : Z) : In k (range n) <-> 0 <= k < n.
Proof.
  unfold range. rewrite in_map_iff. split.
  - intros [i [<- Hi]]. apply in_seq in Hi. lia.
  - intros Hk. exists (Z.to_nat k). split; [lia | apply in_seq; lia].
Qed.

Lemma NoDup_range (n : Z) : List.NoDup (range n).
Proof.
  unfold range. apply Stdlib.Lists.Finite.Injective_map_NoDup.
  - intros a b E. lia.
  - apply seq_NoDup.
Qed.

Lemma inside_spec (sz v : index) :
  inside sz v = true <->
  0 <= ix v < ix sz /\ 0 <= iy v < iy sz /\ 0 <= iz v < iz sz.
Proof.
  unfold inside. rewrite !andb_true_iff, !Z.leb_le, !Z.ltb_lt. lia.
Qed.

Lemma In_indices (sz v : index) : In v (indices sz) <-> inside sz v = true.
Proof.
  rewrite inside_spec. unfold indices. rewrite in_flat_map. split.
  - intros [z [Hz H]]. apply in_flat_map in H. destruct H as [y [Hy H]].
    apply in_map_iff in H. destruct H as [x [<- Hx]].
    apply In_range in Hx, Hy, Hz. unfold ix, iy, iz in *; simpl. lia.
  - intros (Hx & Hy & Hz). exists (iz v). split; [apply In_range; lia |].
    apply in_flat_map. exists (iy v). split; [apply In_range; lia |].
    apply in_map_iff. exists (ix v). split; [| apply In_range; lia].
    destruct v as [[x y] z]; reflexivity.
Qed.

Lemma NoDup_flat_map {A B} (f : A -> list B) (l : list A) :
  List.NoDup l ->
  (forall a, In a l -> List.NoDup (f a)) ->
  (forall a a' b, In a l -> In a' l -> In b (f a) -> In b (f a') -> a = a') ->
  List.NoDup (flat_map f l).
Proof.
  induction l as [| a l IH]; intros Hl Hf Hdisj; simpl.
  - constructor.
  - inversion Hl as [| ? ? Hnotin Hl']; subst.
    apply List.NoDup_app.
    + apply Hf; left; reflexivity.
    + apply IH; [assumption | intros; apply Hf; right; assumption |].
      intros a1 a2 b H1 H2. apply Hdisj; right; assumption.
    + intros b Hb Hb'. apply in_flat_map in Hb'. destruct Hb' as [a' [Ha' Hb']].
      assert (a = a') by (apply (Hdisj a a' b); [left; reflexivity | right; assumption | assumption | assumption]).
      subst. contradiction.
Qed.

Lemma NoDup_indices (sz : index) : List.NoDup (indices sz).
Proof.
  unfold indices. apply NoDup_flat_map.
  - apply NoDup_range.
  - intros z _. apply NoDup_flat_map.
    + apply NoDup_range.
    + intros y _. apply Stdlib.Lists.Finite.Injective_map_NoDup; [| apply NoDup_range].
      intros a b E; inversion E; reflexivity.
    + intros y y' b _ _ H1 H2. apply in_map_iff in H1, H2.
      destruct H1 as [x [<- _]], H2 as [x' [E _]]. inversion E; reflexivity.
  - intros z z' b _ _ H1 H2. apply in_flat_map in H1, H2.
    destruct H1 as [y [_ H1]], H2 as [y' [_ H2]]. apply in_map_iff in H1, H2.
    destruct H1 as [x [<- _]], H2 as [x' [E _]]. inversion E; reflexivity.
Qed.

(** ** Endpoint detector *)

Lemma iadd_zero (v : index) : iadd v (0, 0, 0) = v.
Proof.
  destruct v as [[x y] z]. unfold iadd, ix, iy, iz; simpl.
  rewrite !Z.add_0_r. reflexivity.
Qed.

Lemma Zsum_offsets27 (f : index -> Z) :
  Zsum (map f offsets27) = f (0, 0, 0) + Zsum (map f offsets26).
Proof. unfold offsets27, offsets26, Zsum; simpl. lia. Qed.

Lemma Zsum_binary_count {A} (g : A -> Z) (l : list A) :
  (forall w, g w = 0 \/ g w = 1) ->
  Zsum (map g l) = Z.of_nat (length (List.filter (fun w => negb (g w =? 0)) l)).
Proof.
  intros Hg. induction l as [| a l IH]; [reflexivity |].
  simpl. unfold Zsum in *; simpl. rewrite IH.
  destruct (Hg a) as [E | E]; rewrite E; simpl; lia.
Qed.

Lemma is_binary_pix (img : image Z) (v : index) :
  is_binary img = true -> inside (GetSize img) v = true ->
  pix img v = 0 \/ pix img v = 1.
Proof.
  unfold is_binary. rewrite forallb_forall. intros H Hin.
  apply In_indices in Hin. specialize (H v Hin).
  apply orb_true_iff in H. rewrite !Z.eqb_eq in H. exact H.
Qed.

Lemma is_binary_vox (img : image Z) (v : index) :
  is_binary img = true -> vox img v = 0 \/ vox img v = 1.
Proof.
  intros H. unfold vox. destruct (inside (GetSize img) v) eqn:E.
  - apply is_binary_pix; assumption.
  - left; reflexivity.
Qed.

Lemma skeleton_neighbours_le (skel : image Z) (v : index) :
  (skeleton_neighbours skel v <= 26)%nat.
Proof.
  unfold skeleton_neighbours.
  etransitivity; [apply List.filter_length_le |].
  unfold neighbours26. rewrite length_map. apply Nat.eq_le_incl. reflexivity.
Qed.

Lemma convolve_ones_count (skel : image Z) (v : index) :
  is_binary skel = true ->
  convolve_ones skel v = vox skel v + Z.of_nat (skeleton_neighbours skel v).
Proof.
  intros Hbin. unfold convolve_ones.
  rewrite (Zsum_offsets27 (fun o => vox skel (iadd v o))). rewrite iadd_zero.
  assert (E : Zsum (map (fun o => vox skel (iadd v o)) offsets26)
              = Z.of_nat (skeleton_neighbours skel v)).
  { unfold skeleton_neighbours, neighbours26.
    rewrite <- (Zsum_binary_count (vox skel)) by (intros w; apply is_binary_vox; assumption).
    rewrite map_map. reflexivity. }
  rewrite E. pose proof (skeleton_neighbours_le skel v) as Hle.
  destruct (is_binary_vox skel v Hbin) as [E0 | E0]; rewrite E0;
    apply Z.mod_small; lia.
Qed.

Lemma endpoint_test_spec (skel : image Z) (v : index) :
  is_binary skel = true -> inside (GetSize skel) v = true ->
  ((pix skel v =? 1) && (convolve_ones skel v =? 2) = true <->
   pix skel v <> 0 /\ skeleton_neighbours skel v = 1%nat).
Proof.
  intros Hbin Hin. rewrite convolve_ones_count by assumption.
  unfold vox. rewrite Hin.
  rewrite andb_true_iff, !Z.eqb_eq.
  destruct (is_binary_pix skel v Hbin Hin) as [E | E]; rewrite E; lia.
Qed.

Lemma In_offsets26 (o : index) :
  In o offsets26 <->
  (-1 <= ix o <= 1 /\ -1 <= iy o <= 1 /\ -1 <= iz o <= 1) /\ o <> (0, 0, 0).
Proof.
  split.
  - intros H. apply mem_In in H. destruct o as [[x y] z].
    unfold offsets26, offsets27 in H. simpl in H.
    unfold index_eqb, ix, iy, iz in H; simpl in H.
    unfold ix, iy, iz; simpl.
    repeat (apply orb_true_iff in H; destruct H as [H | H]);
      try discriminate H;
      (apply andb_true_iff in H; destruct H as [H Hz];
       apply andb_true_iff in H; destruct H as [Hx Hy];
       apply Z.eqb_eq in Hx, Hy, Hz; subst;
       split; [lia | discriminate]).
  - intros [(Hx & Hy & Hz) Hne]. destruct o as [[x y] z].
    unfold ix, iy, iz in Hx, Hy, Hz; simpl in Hx, Hy, Hz.
    assert (Ex : x = -1 \/ x = 0 \/ x = 1) by lia.
    assert (Ey : y = -1 \/ y = 0 \/ y = 1) by lia.
    assert (Ez : z = -1 \/ z = 0 \/ z = 1) by lia.
    apply mem_In.
    destruct Ex as [-> | [-> | ->]], Ey as [-> | [-> | ->]], Ez as [-> | [-> | ->]];
      try reflexivity.
    exfalso; apply Hne; reflexivity.
Qed.

Lemma iadd_inj (v a b : index) : iadd v a = iadd v b -> a = b.
Proof.
  destruct v as [[vx vy] vz], a as [[ax ay] az], b as [[bx by'] bz].
  unfold iadd, ix, iy, iz; simpl. intros E; inversion E.
  f_equal; [f_equal |]; lia.
Qed.

Lemma NoDup_offsets26 : List.NoDup offsets26.
Proof.
  unfold offsets26. apply List.NoDup_filter.
  unfold offsets27. simpl.
  repeat (constructor;
          [simpl; intros H; repeat (destruct H as [H | H]; [discriminate H |]); exact H |]).
  constructor.
Qed.

Lemma NoDup_neighbours26 (v : index) : List.NoDup (neighbours26 v).
Proof.
  unfold neighbours26. apply Stdlib.Lists.Finite.Injective_map_NoDup.
  - intros a b. apply iadd_inj.
  - apply NoDup_offsets26.
Qed.

Lemma length_one_of_NoDup {A} (l : list A) (a : A) :
  List.NoDup l -> (forall x, In x l <-> x = a) -> length l = 1%nat.
Proof.
  intros Hnd Hmem.
  assert (P : Permutation l [a]).
  { apply Stdlib.Sorting.Permutation.NoDup_Permutation; [assumption | repeat constructor; simpl; tauto |].
    intros x. rewrite Hmem. simpl. split; [intros ->; left; reflexivity | intros [-> | []]; reflexivity]. }
  apply Permutation_length in P. exact P.
Qed.

Lemma length_two_of_NoDup {A} (l : list A) (a b : A) :
  List.NoDup l -> a <> b -> (forall x, In x l <-> x = a \/ x = b) -> length l = 2%nat.
Proof.
  intros Hnd Hab Hmem.
  assert (P : Permutation l [a; b]).
  { apply Stdlib.Sorting.Permutation.NoDup_Permutation; [assumption | |].
    - constructor; [simpl; intros [E | []]; apply Hab; symmetry; exact E |].
      constructor; [simpl; tauto | constructor].
    - intros x. rewrite Hmem. simpl. intuition congruence. }
  apply Permutation_length in P. exact P.
Qed.

Lemma length_ge_two_of_NoDup {A} (l : list A) (a b : A) :
  List.NoDup l -> a <> b -> In a l -> In b l -> (2 <= length l)%nat.
Proof.
  intros Hnd Hab Ha Hb.
  assert (Hincl : incl [a; b] l) by (intros x [<- | [<- | []]]; assumption).
  apply List.NoDup_incl_length in Hincl; [exact Hincl |].
  constructor; [simpl; intros [E | []]; apply Hab; symmetry; exact E |].
  constructor; [simpl; tauto | constructor].
Qed.

Section Line.
Variables (g : geometry) (p0 d : index) (n : Z).
Hypothesis Hd : In d offsets26.
Hypothesis Hn : 2 <= n.
Hypothesis Hfirst : inside (g_size g) p0 = true.
Hypothesis Hlast : inside (g_size g) (iadd p0 (iscale (n - 1) d)) = true.

Let L : image Z := line_image g p0 d n.
Let at_ (i : Z) : index := iadd p0 (iscale i d).

Ltac step_cases :=
  let H := fresh in
  pose proof (proj1 (In_offsets26 d) Hd) as H;
  destruct d as [[dx dy] dz], p0 as [[x0 y0] z0];
  unfold at_, iadd, iscale, ix, iy, iz in *; simpl in *;
  destruct H as [(?Hx & ?Hy & ?Hz) ?Hne];
  assert (dx = -1 \/ dx = 0 \/ dx = 1) as [-> | [-> | ->]] by lia;
  assert (dy = -1 \/ dy = 0 \/ dy = 1) as [-> | [-> | ->]] by lia;
  assert (dz = -1 \/ dz = 0 \/ dz = 1) as [-> | [-> | ->]] by lia;
  try (exfalso; apply Hne; reflexivity).

Lemma at_inside (i : Z) : 0 <= i < n -> inside (g_size g) (at_ i) = true.
Proof using All.
  intros Hi. apply inside_spec. apply inside_spec in Hfirst, Hlast.
  clear L. destruct (g_size g) as [[X Y] Zs].
  step_cases; lia.
Qed.

Lemma at_inj (i j : Z) : at_ i = at_ j -> i = j.
Proof using All.
  clear L Hfirst Hlast. intros E.
  step_cases; inversion E; lia.
Qed.

Lemma neighbour_step (i j : Z) (o : index) :
  In o offsets26 -> iadd (at_ i) o = at_ j -> j = i + 1 \/ j = i - 1.
Proof using All.
  clear L Hfirst Hlast. intros Ho E. apply In_offsets26 in Ho.
  destruct o as [[ox oy] oz]. destruct Ho as [(Hox & Hoy & Hoz) Hone].
  assert (Hnz : ~ (ox = 0 /\ oy = 0 /\ oz = 0)).
  { intros (-> & -> & ->). apply Hone; reflexivity. }
  clear Hone.
  step_cases; unfold ix, iy, iz in *; simpl in *; inversion E; lia.
Qed.

Lemma step_back (i : Z) : iadd (at_ i) (iscale (-1) d) = at_ (i - 1).
Proof using All.
  clear. unfold at_. destruct d as [[dx dy] dz], p0 as [[x0 y0] z0].
  unfold iadd, iscale, ix, iy, iz; simpl. f_equal; [f_equal |]; lia.
Qed.

Lemma step_forth (i : Z) : iadd (at_ i) d = at_ (i + 1).
Proof using All.
  clear. unfold at_. destruct d as [[dx dy] dz], p0 as [[x0 y0] z0].
  unfold iadd, iscale, ix, iy, iz; simpl. f_equal; [f_equal |]; lia.
Qed.

Lemma opposite_offset : In (iscale (-1) d) offsets26.
Proof using All.
  clear L Hfirst Hlast. apply In_offsets26.
  step_cases; (split; [lia | discriminate]).
Qed.

Lemma vox_line (w : index) :
  vox L w <> 0 <-> exists j, 0 <= j < n /\ w = at_ j.
Proof using All.
  unfold vox, L, line_image, GetSize; simpl. split.
  - destruct (inside (g_size g) w); [| congruence].
    destruct (mem w (line_voxels p0 d n)) eqn:E; [| congruence].
    intros _. apply mem_In in E. unfold line_voxels in E.
    apply in_map_iff in E. destruct E as [j [<- Hj]].
    apply In_range in Hj. exists j. split; [assumption | reflexivity].
  - intros [j [Hj ->]]. rewrite (at_inside j Hj).
    assert (E : mem (at_ j) (line_voxels p0 d n) = true).
    { apply mem_In. unfold line_voxels. apply in_map_iff.
      exists j. split; [reflexivity | apply In_range; assumption]. }
    rewrite E. discriminate.
Qed.

Lemma line_neighbours_mem (i : Z) (w : index) :
  0 <= i < n ->
  (In w (List.filter (fun w => negb (vox L w =? 0)) (neighbours26 (at_ i))) <->
   exists j, 0 <= j < n /\ (j = i + 1 \/ j = i - 1) /\ w = at_ j).
Proof using All.
  intros Hi. rewrite filter_In, negb_true_iff, Z.eqb_neq, vox_line.
  unfold neighbours26. rewrite in_map_iff. split.
  - intros [[o [Ho Hino]] [j [Hj Hw]]]. exists j. subst w.
    repeat split; try assumption; try lia.
    apply (neighbour_step i j o); assumption.
  - intros [j [Hj [Hstep ->]]]. split; [| exists j; split; [assumption | reflexivity]].
    destruct Hstep as [-> | ->].
    + exists d. split; [apply step_forth | assumption].
    + exists (iscale (-1) d). split; [apply step_back | apply opposite_offset].
Qed.

Lemma line_neighbours_count (i : Z) :
  0 <= i < n -> (skeleton_neighbours L (at_ i) = 1%nat <-> i = 0 \/ i = n - 1).
Proof using All.
  intros Hi. unfold skeleton_neighbours.
  set (F := List.filter (fun w => negb (vox L w =? 0)) (neighbours26 (at_ i))).
  assert (HF : List.NoDup F) by (apply List.NoDup_filter, NoDup_neighbours26).
  assert (Hmem := line_neighbours_mem i). fold F in Hmem.
  destruct (Z.eq_dec i 0) as [E0 | N0]; [| destruct (Z.eq_dec i (n - 1)) as [E1 | N1]].
  - split; [intros _; left; assumption | intros _].
    apply (length_one_of_NoDup F (at_ (i + 1))); [assumption |].
    intros x. rewrite (Hmem x Hi). split.
    + intros [j [Hj [[-> | ->] ->]]]; [reflexivity | lia].
    + intros ->. exists (i + 1). repeat split; lia.
  - split; [intros _; right; assumption | intros _].
    apply (length_one_of_NoDup F (at_ (i - 1))); [assumption |].
    intros x. rewrite (Hmem x Hi). split.
    + intros [j [Hj [[-> | ->] ->]]]; [lia | reflexivity].
    + intros ->. exists (i - 1). repeat split; lia.
  - split; [| lia]. intros Hlen. exfalso.
    assert (2 <= length F)%nat; [| lia].
    apply (length_ge_two_of_NoDup F (at_ (i + 1)) (at_ (i - 1))); [assumption | | |].
    + intros E. apply at_inj in E. lia.
    + apply (Hmem _ Hi). exists (i + 1). repeat split; lia.
    + apply (Hmem _ Hi). exists (i - 1). repeat split; lia.
Qed.

Lemma line_binary : is_binary L = true.
Proof using All.
  unfold is_binary. apply forallb_forall. intros v _.
  unfold L, line_image; simpl. destruct (mem v (line_voxels p0 d n)); reflexivity.
Qed.

Lemma line_endpoint_voxels (v : index) :
  inside (g_size g) v = true ->
  ((pix L v =? 1) && (convolve_ones L v =? 2) = true <->
   v = at_ 0 \/ v = at_ (n - 1)).
Proof using All.
  intros Hin. rewrite (endpoint_test_spec L v line_binary Hin).
  assert (Hvox : pix L v = vox L v) by (unfold vox, L, GetSize; simpl; rewrite Hin; reflexivity).
  rewrite Hvox, vox_line. split.
  - intros [[j [Hj ->]] Hc]. apply line_neighbours_count in Hc; [| assumption].
    destruct Hc as [-> | ->]; [left | right]; reflexivity.
  - intros [-> | ->].
    + split; [exists 0; split; [lia | reflexivity] | apply line_neighbours_count; lia].
    + split; [exists (n - 1); split; [lia | reflexivity] | apply line_neighbours_count; lia].
Qed.

Lemma line_two_endpoints : length (endpoints_from_skeleton L) = 2%nat.
Proof using All.
  unfold endpoints_from_skeleton. rewrite length_map.
  apply (length_two_of_NoDup _ (at_ 0) (at_ (n - 1))).
  - apply List.NoDup_filter, NoDup_indices.
  - intros E. apply at_inj in E. lia.
  - intros v. rewrite filter_In, In_indices. split.
    + intros [Hin Hep]. apply line_endpoint_voxels; assumption.
    + intros Hv. assert (Hin : inside (GetSize L) v = true).
      { destruct Hv as [-> | ->]; apply at_inside; lia. }
      split; [assumption | apply line_endpoint_voxels; assumption].
Qed.
End Line.

(** C8. On a binary skeleton the detector reports exactly the physical
    points of the skeleton voxels whose 26-neighbourhood holds exactly one
    other skeleton voxel; hence a straight digital segment of [n >= 2]
    voxels, in any of the 26 directions, has exactly two endpoints. *)
Theorem endpoint_detector_exact :
  (forall skel : image Z, is_binary skel = true ->
     forall p : point,
       In p (endpoints_from_skeleton skel) <->
       exists v, inside (GetSize skel) v = true /\
                 p = TransformIndexToPhysicalPoint skel v /\
                 pix skel v <> 0 /\ skeleton_neighbours skel v = 1%nat) /\
  (forall (g : geometry) (p0 d : index) (n : Z),
     In d offsets26 -> 2 <= n ->
     inside (g_size g) p0 = true ->
     inside (g_size g) (iadd p0 (iscale (n - 1) d)) = true ->
     length (endpoints_from_skeleton (line_image g p0 d n)) = 2%nat).
Proof.
  split.
  - intros skel Hbin p. unfold endpoints_from_skeleton.
    rewrite in_map_iff. split.
    + intros [v [<- Hv]]. apply filter_In in Hv. destruct Hv as [Hin Hep].
      apply In_indices in Hin. apply endpoint_test_spec in Hep; [| assumption | assumption].
      exists v. tauto.
    + intros [v (Hin & -> & Hpix & Hcount)]. exists v. split; [reflexivity |].
      apply filter_In. split; [apply In_indices; assumption |].
      apply endpoint_test_spec; [assumption | assumption | tauto].
  - intros g p0 d n Hd Hn Hfirst Hlast. apply line_two_endpoints; assumption.
Qed.

Lemma endpoint_detector_exact_witness :
  let g := Geometry (3, 1, 1) (1, 1, 1)%Q (0, 0, 0)%Q in
  let skel := line_image g (0, 0, 0) (1, 0, 0) 3 in
  In (TransformIndexToPhysicalPoint skel (2, 0, 0)) (endpoints_from_skeleton skel) /\
  length (endpoints_from_skeleton skel) = 2%nat.
Proof.
  intros g skel. split.
  - apply (proj1 endpoint_detector_exact skel eq_refl).
    exists (2, 0, 0). repeat split; [discriminate].
  - apply (proj2 endpoint_detector_exact g (0, 0, 0) (1, 0, 0) 3).
    + apply mem_In. reflexivity.
    + discriminate.
    + reflexivity.
    + reflexivity.
Defined.

(** ** Side selection by file name *)

Lemma prefix_spec (s1 s2 : string) :
  String.prefix s1 s2 = true <-> exists post, s2 = s1 +:+ post.
Proof.
  revert s2. induction s1 as [| c s1 IH]; intros s2.
  - destruct s2; simpl; (split; [intros _; eexists; reflexivity | reflexivity]).
  - destruct s2 as [| c2 s2]; simpl.
    + split; [discriminate | intros [post E]; discriminate E].
    + destruct (ascii_dec c c2) as [-> | Hne].
      * rewrite IH. split; intros [post E]; exists post; [rewrite E; reflexivity | inversion E; reflexivity].
      * split; [discriminate | intros [post E]; inversion E; congruence].
Qed.

Lemma contains_spec (needle hay : string) :
  contains needle hay = true <-> is_substring needle hay.
Proof.
  unfold is_substring. induction hay as [| c hay IH].
  - change (contains needle "") with (String.prefix needle "" || false).
    rewrite orb_false_r, prefix_spec. split.
    + intros [post E]. exists EmptyString, post. exact E.
    + intros [pre [post E]]. destruct pre; simpl in E; [exists post; exact E | discriminate E].
  - change (contains needle (String c hay))
      with (String.prefix needle (String c hay) || contains needle hay).
    rewrite orb_true_iff, prefix_spec, IH. split.
    + intros [[post E] | [pre [post E]]].
      * exists EmptyString, post. exact E.
      * exists (String c pre), post. simpl. rewrite E. reflexivity.
    + intros [pre [post E]]. destruct pre as [| c' pre]; simpl in E.
      * left. exists post. exact E.
      * right. inversion E. exists pre, post. reflexivity.
Qed.

Lemma Qmax_ge_r (a b : Q) : (b <= Qmax a b)%Q.
Proof.
  unfold Qmax. destruct (Qle_bool b a) eqn:E.
  - apply Qle_bool_iff; exact E.
  - apply Qle_refl.
Qed.

Lemma Qmax_ge_l (a b : Q) : (a <= Qmax a b)%Q.
Proof.
  unfold Qmax. destruct (Qle_bool b a) eqn:E.
  - apply Qle_refl.
  - apply Qlt_le_weak, Qnot_le_lt. intros H. apply Qle_bool_iff in H. congruence.
Qed.

(** C10. The side is decided by the file name alone: a name containing
    [rib_right_1] gets the strict cutoff 0.005 and the floor 400 HU, every
    other name gets the cutoff 0.05 and the floor 200 HU; in both cases the
    floor is a lower limit of the growth threshold. *)
Theorem side_selected_by_filename (rib_filename : string) :
  (is_substring "rib_right_1" rib_filename ->
     side_selection rib_filename = ((5 # 1000)%Q, "Right", 400%Q)) /\
  (~ is_substring "rib_right_1" rib_filename ->
     side_selection rib_filename = ((5 # 100)%Q, "Left", 200%Q)) /\
  (forall (ct : image Q) (rib : image Z),
     (snd (side_selection rib_filename)
      <= lower_hu_of ct rib (snd (side_selection rib_filename)))%Q).
Proof.
  unfold side_selection. split; [| split].
  - intros H. apply contains_spec in H. rewrite H. reflexivity.
  - intros H. destruct (contains "rib_right_1" rib_filename) eqn:E.
    + exfalso. apply H, contains_spec, E.
    + reflexivity.
  - intros ct rib. apply Qmax_ge_r.
Qed.

(** The driver also picks up first right ribs spelt differently (upper
    case, a hyphen, a leading zero); none of them contains [rib_right_1],
    so they are repaired with the left-side settings. *)
Lemma right_rib_spellings_get_left_settings :
  Forall (fun f => is_first_rib_file f = true /\
                   side_selection (basename f) = ((5 # 100)%Q, "Left", 200%Q))
    ["RIB_RIGHT_1.nii.gz"; "rib-right-1.nii"; "rib_right_01.nii.gz"].
Proof. repeat constructor. Qed.

Lemma side_selected_by_filename_witness :
  side_selection "rib_right_1.nii.gz" = ((5 # 1000)%Q, "Right", 400%Q) /\
  side_selection "rib_right_01.nii.gz" = ((5 # 100)%Q, "Left", 200%Q).
Proof.
  split.
  - apply (proj1 (side_selected_by_filename "rib_right_1.nii.gz")).
    exists "", ".nii.gz". reflexivity.
  - apply (proj1 (proj2 (side_selected_by_filename "rib_right_01.nii.gz"))).
    intros H. apply contains_spec in H. discriminate H.
Defined.

(** ** Endpoint classifier *)

Lemma candidates_spec (ct : image Q) (rib : image Z) (endpoints : list point)
  (cutoff : Q) (ep : point) :
  In ep (map fst (growth_candidates_of ct rib endpoints cutoff)) <->
  In ep endpoints /\ pyfloat_le (classify ct rib ep) cutoff = true.
Proof.
  unfold growth_candidates_of. rewrite in_map_iff. split.
  - intros [[ep' frac] [E H]]. simpl in E. subst ep'.
    apply filter_In in H. destruct H as [H Hle]. simpl in Hle.
    apply in_map_iff in H. destruct H as [ep' [E Hin]]. inversion E; subst.
    split; assumption.
  - intros [Hin Hle]. exists (ep, classify ct rib ep). split; [reflexivity |].
    apply filter_In. split; [| exact Hle].
    apply in_map_iff. exists ep. split; [reflexivity | assumption].
Qed.


Lemma classify_ineligible (ct : image Q) (rib : image Z) (ep : point) :
  eligible ct ep = false -> classify ct rib ep = Finite 1.
Proof.
  unfold eligible, classify, endpoint_is_posterior_missing_tubercle.
  intros ->. reflexivity.
Qed.




(** C4 (as stated) fails: the outcome for an endpoint that fails the
    anatomical gate is the float 1.0, and an eligible endpoint whose whole
    neighbourhood is dense bone outside the rib gets the same value. *)
Lemma ineligible_outcome_not_distinct :
  eligible ct_all_dense ep_anterior = false /\
  eligible ct_all_dense ep_posterior = true /\
  classify ct_all_dense rib_none ep_posterior
    = contamination ct_all_dense rib_none ep_posterior /\
  pyfloat_eqb (classify ct_all_dense rib_none ep_anterior)
              (classify ct_all_dense rib_none ep_posterior) = true.
Proof. repeat split. Qed.

(** C4 (amended). An endpoint that fails the anatomical gate gets the
    value 1.0, and it is a growth candidate under neither side's cutoff,
    whatever the file name. *)
Theorem ineligible_never_candidate (ct : image Q) (rib : image Z)
  (endpoints : list point) (ep : point) (rib_filename : string) :
  eligible ct ep = false ->
  classify ct rib ep = Finite 1 /\
  ~ In ep (map fst (growth_candidates_of ct rib endpoints
                      (fst (fst (side_selection rib_filename))))).
Proof.
  intros Hel. split; [apply classify_ineligible; assumption |].
  rewrite candidates_spec, (classify_ineligible ct rib ep Hel).
  unfold side_selection.
  destruct (contains "rib_right_1" rib_filename); simpl; intros [_ H]; discriminate H.
Qed.

Lemma ineligible_never_candidate_witness :
  classify ct_all_dense rib_none ep_anterior = Finite 1 /\
  ~ In ep_anterior
      (map fst (growth_candidates_of ct_all_dense rib_none [ep_anterior; ep_posterior]
                  (fst (fst (side_selection "rib_left_1.nii.gz"))))).
Proof.
  apply (ineligible_never_candidate ct_all_dense rib_none
           [ep_anterior; ep_posterior] ep_anterior "rib_left_1.nii.gz").
  reflexivity.
Defined.

(** ** Region growing inside the corridor *)

Lemma flood_sound (fuel : nat) (dom : list index) (ok : index -> bool)
  (cur : list index) :
  (forall v, In v cur -> In v dom /\ ok v = true) ->
  forall v, In v (flood fuel dom ok cur) -> In v dom /\ ok v = true.
Proof.
  revert cur. induction fuel as [| k IH]; intros cur Hcur v Hv; simpl in Hv.
  - apply Hcur; assumption.
  - apply (IH _) in Hv; [assumption |].
    intros w Hw. apply filter_In in Hw. destruct Hw as [Hdom Hok].
    apply andb_true_iff in Hok. tauto.
Qed.

Lemma ConnectedThreshold_sound (img : image Q) (seeds : list index) (lo hi : Q)
  (v : index) :
  pix (ConnectedThreshold img seeds lo hi) v <> 0 ->
  inside (GetSize img) v = true /\ (lo <= pix img v)%Q /\ (pix img v <= hi)%Q.
Proof.
  unfold ConnectedThreshold; simpl.
  destruct (mem v _) eqn:E; [intros _ | congruence].
  apply mem_In in E. apply flood_sound in E.
  - destruct E as [Hdom Hok]. apply In_indices in Hdom.
    apply andb_true_iff in Hok. destruct Hok as [H1 H2].
    apply Qle_bool_iff in H1, H2. tauto.
  - intros w Hw. apply filter_In in Hw. destruct Hw as [Hdom Hok].
    apply andb_true_iff in Hok. tauto.
Qed.

Lemma to_u8_nonzero (img : image Z) (v : index) :
  pix (to_u8 img) v <> 0 <-> 0 < pix img v.
Proof.
  unfold to_u8; simpl. destruct (0 <? pix img v) eqn:E.
  - apply Z.ltb_lt in E. split; [intros _; assumption | discriminate].
  - apply Z.ltb_ge in E. split; [congruence | lia].
Qed.

Lemma to_u8_binary (img : image Z) (v : index) :
  pix (to_u8 img) v = 0 \/ pix (to_u8 img) v = 1.
Proof. unfold to_u8; simpl. destruct (0 <? pix img v); auto. Qed.

(** A grown voxel is in the buffer, has its intensity in the window and,
    when the window lies above the outside value, belongs to the corridor. *)
Lemma region_grow_local_sound (ct : image Q) (seeds : list point) (lo hi : Q)
  (corridor : image Z) (v : index) :
  (-2000 < lo)%Q ->
  pix (region_grow_local ct seeds lo hi corridor) v <> 0 ->
  inside (GetSize ct) v = true /\ pix corridor v <> 0 /\
  (lo <= pix ct v)%Q /\ (pix ct v <= hi)%Q.
Proof.
  intros Hlo. unfold region_grow_local. destruct seeds as [| s seeds].
  - simpl. congruence.
  - intros H. apply to_u8_nonzero in H.
    assert (H' : pix (ConnectedThreshold (Mask ct corridor (-2000))
                        (map (TransformPhysicalPointToIndex ct) (s :: seeds)) lo hi) v <> 0)
      by lia.
    apply ConnectedThreshold_sound in H'. destruct H' as (Hin & H1 & H2).
    unfold Mask in H1, H2, Hin; simpl in H1, H2.
    destruct (pix corridor v =? 0) eqn:E.
    + exfalso. apply (Qlt_not_le _ _ Hlo). exact H1.
    + apply Z.eqb_neq in E. tauto.
Qed.

Lemma land_nonzero (a b : Z) : Z.land a b <> 0 -> a <> 0 /\ b <> 0.
Proof.
  intros H. split; intros ->; apply H; [apply Z.land_0_l | apply Z.land_0_r].
Qed.

Lemma le_const_nonzero (img : image Q) (c : Q) (v : index) :
  pix (to_u8 (le_const img c)) v <> 0 -> (pix img v <= c)%Q.
Proof.
  intros H. apply to_u8_nonzero in H. unfold le_const in H; simpl in H.
  destruct (Qle_bool (pix img v) c) eqn:E; [apply Qle_bool_iff; exact E | lia].
Qed.

Lemma ge_const_nonzero (img : image Q) (c : Q) (v : index) :
  pix (to_u8 (ge_const img c)) v <> 0 -> (c <= pix img v)%Q.
Proof.
  intros H. apply to_u8_nonzero in H. unfold ge_const in H; simpl in H.
  destruct (Qle_bool c (pix img v)) eqn:E; [apply Qle_bool_iff; exact E | lia].
Qed.


Lemma iadd_isub (v b : index) : iadd (isub v b) b = v.
Proof.
  destruct v as [[vx vy] vz], b as [[bx by'] bz].
  unfold isub, iadd, ix, iy, iz; simpl. f_equal; [f_equal |]; lia.
Qed.

(** A voxel of the endpoint sphere is the seed voxel moved by an offset of
    the ball, or the seed voxel itself. *)
Lemma sphere_nonzero `{SimpleITK} (ribs : image Z) (c : index) (radius : index)
  (v : index) :
  pix (BinaryDilate (seed_image ribs c) radius) v <> 0 ->
  inside (GetSize ribs) c = true /\
  (v = c \/ exists b, In b (sitkBall radius) /\ v = iadd c b).
Proof.
  unfold BinaryDilate, dilated, seed_image; simpl.
  destruct (inside (GetSize ribs) c) eqn:Hc.
  - intros Hv. split; [reflexivity |].
    destruct (existsb _ (sitkBall radius)) eqn:E.
    + right. apply existsb_exists in E. destruct E as [b [Hb E]].
      exists b. split; [assumption |].
      unfold vox in E; simpl in E.
      destruct (inside _ (isub v b)); [| discriminate E].
      destruct (index_eqb (isub v b) c) eqn:Ec; [| discriminate E].
      apply index_eqb_eq in Ec. rewrite <- Ec. symmetry. apply iadd_isub.
    + left. unfold vox in Hv; simpl in Hv.
      destruct (inside _ v); [| congruence].
      destruct (index_eqb v c) eqn:Ec; [| congruence].
      apply index_eqb_eq in Ec. exact Ec.
  - intros Hv. exfalso. apply Hv.
    destruct (existsb _ (sitkBall radius)) eqn:E.
    + apply existsb_exists in E. destruct E as [b [Hb E]].
      unfold vox, zeros_like in E; simpl in E.
      destruct (inside _ (isub v b)); discriminate E.
    + unfold vox, zeros_like; simpl. destruct (inside _ v); reflexivity.
Qed.

Lemma lower_hu_above_outside (ct : image Q) (rib : image Z) (rib_filename : string) :
  (-2000 < lower_hu_of ct rib (snd (side_selection rib_filename)))%Q.
Proof.
  apply Qlt_le_trans with (y := snd (side_selection rib_filename)).
  - unfold side_selection. destruct (contains "rib_right_1" rib_filename); reflexivity.
  - apply Qmax_ge_r.
Qed.

(** C5. Every voxel grown from an accepted endpoint lies in the corridor
    built for it: its distance to the rib is at most R1 = 10 mm, it is in
    the endpoint sphere (the seed voxel dilated by the ball of radius
    R2 = 14 mm), and when the spine mask is not empty its distance to the
    spine is at least the clearance of 8 mm. *)
Theorem growth_within_corridor `{SimpleITK} (ct : image Q) (rib spine : image Z)
  (ep : point) (rib_filename : string) (corridor : image Z) (v : index) :
  corridor_for_tip rib spine ep R_RIB_MM_R R_TIP_MM_R = Ok corridor ->
  pix (region_grow_local ct [ep]
         (lower_hu_of ct rib (snd (side_selection rib_filename))) UPPER_HU corridor) v <> 0 ->
  pix corridor v <> 0 /\
  (exists d_rib, dist_map_mm rib = Ok d_rib /\ (pix d_rib v <= R_RIB_MM_R)%Q) /\
  (inside (GetSize rib) (TransformPhysicalPointToIndex rib ep) = true /\
   (v = TransformPhysicalPointToIndex rib ep \/
    exists b, In b (sitkBall (tip_radius rib R_TIP_MM_R)) /\
              v = iadd (TransformPhysicalPointToIndex rib ep) b)) /\
  (any spine = true ->
   exists d_spine, dist_map_mm spine = Ok d_spine /\ (SPINE_CLEAR_MM <= pix d_spine v)%Q).
Proof.
  intros Hcor Hgrow.
  apply region_grow_local_sound in Hgrow; [| apply lower_hu_above_outside].
  destruct Hgrow as (_ & Hv & _). split; [exact Hv |].
  unfold corridor_for_tip in Hcor.
  destruct (dist_map_mm rib) as [d_rib | e] eqn:Hd; simpl in Hcor; [| discriminate Hcor].
  destruct (any spine) eqn:Hsp.
  - destruct (dist_map_mm spine) as [d_spine | e] eqn:Hds; simpl in Hcor; [| discriminate Hcor].
    inversion Hcor as [Hc]. rewrite <- Hc in Hv. simpl in Hv.
    apply land_nonzero in Hv. destruct Hv as [Hv Hclear].
    apply land_nonzero in Hv. destruct Hv as [Hnear Hsphere].
    split; [exists d_rib; split; [reflexivity | apply le_const_nonzero; exact Hnear] |].
    split; [apply sphere_nonzero; exact Hsphere |].
    intros _. exists d_spine. split; [reflexivity | apply ge_const_nonzero; exact Hclear].
  - simpl in Hcor. inversion Hcor as [Hc]. rewrite <- Hc in Hv. simpl in Hv.
    apply land_nonzero in Hv. destruct Hv as [Hnear Hsphere].
    split; [exists d_rib; split; [reflexivity | apply le_const_nonzero; exact Hnear] |].
    split; [apply sphere_nonzero; exact Hsphere |].
    discriminate.
Qed.

Lemma growth_within_corridor_witness :
  exists d_rib : image Q,
    @dist_map_mm small_volume_filters rib_column = Ok d_rib /\
    (pix d_rib (0, 1, 0)%Z <= R_RIB_MM_R)%Q.
Proof.
  pose (ep := (0, 21, 0)%Q : point).
  pose (corridor :=
          match @corridor_for_tip small_volume_filters rib_column
                  (zeros_like ct_column) ep R_RIB_MM_R R_TIP_MM_R with
          | Ok c => c
          | Raise _ => zeros_like rib_column
          end).
  assert (Hc : @corridor_for_tip small_volume_filters rib_column
                 (zeros_like ct_column) ep R_RIB_MM_R R_TIP_MM_R = Ok corridor)
    by reflexivity.
  assert (Hg : pix (region_grow_local ct_column [ep]
                      (lower_hu_of ct_column rib_column
                         (snd (side_selection "rib_left_1.nii.gz")))
                      UPPER_HU corridor) (0, 1, 0) <> 0)
    by (vm_compute; discriminate).
  exact (proj1 (proj2 (@growth_within_corridor small_volume_filters ct_column rib_column
                         (zeros_like ct_column) ep "rib_left_1.nii.gz" corridor
                         (0, 1, 0) Hc Hg))).
Defined.

(** ** Intensity window of the growth *)






(** ** Component filter *)

Lemma insert_label_In (L x : Z) (ls : list Z) :
  In x (insert_label L ls) <-> x = L \/ In x ls.
Proof.
  induction ls as [| L' rest IH]; simpl.
  - intuition congruence.
  - destruct (L <? L') eqn:E1; [simpl; intuition congruence |].
    destruct (L =? L') eqn:E2.
    + apply Z.eqb_eq in E2. subst. simpl. intuition congruence.
    + simpl. rewrite IH. intuition congruence.
Qed.

Lemma GetLabels_spec (cc : image Z) (L : Z) :
  In L (GetLabels cc) <->
  L <> 0 /\ exists v, inside (GetSize cc) v = true /\ pix cc v = L.
Proof.
  unfold GetLabels.
  assert (G : forall l,
    In L (fold_right (fun v acc => if pix cc v =? 0 then acc
                                   else insert_label (pix cc v) acc) [] l) <->
    L <> 0 /\ exists v, In v l /\ pix cc v = L).
  { induction l as [| a l IH]; simpl.
    - split; [intros [] | intros [_ [v [[] _]]]].
    - destruct (pix cc a =? 0) eqn:E.
      + apply Z.eqb_eq in E. rewrite IH. split.
        * intros [HL [v [Hv Hp]]]. split; [exact HL | exists v; tauto].
        * intros [HL [v [[<- | Hv] Hp]]]; [congruence | split; [exact HL | exists v; tauto]].
      + apply Z.eqb_neq in E. rewrite insert_label_In, IH. split.
        * intros [-> | [HL [v [Hv Hp]]]].
          -- split; [exact E | exists a; tauto].
          -- split; [exact HL | exists v; tauto].
        * intros [HL [v [[<- | Hv] Hp]]]; [left; congruence |].
          right. split; [exact HL | exists v; tauto]. }
  rewrite G. split; intros [HL [v [Hv Hp]]]; (split; [exact HL | exists v]);
    (split; [apply In_indices; exact Hv | exact Hp]).
Qed.

Lemma component_mask (cc : image Z) (L : Z) (v : index) :
  pix (to_u8 (BinaryThreshold cc L L)) v = if pix cc v =? L then 1 else 0.
Proof.
  unfold to_u8, BinaryThreshold; simpl.
  destruct (pix cc v =? L) eqn:E.
  - apply Z.eqb_eq in E. rewrite E, Z.leb_refl. reflexivity.
  - apply Z.eqb_neq in E.
    destruct (L <=? pix cc v) eqn:E1, (pix cc v <=? L) eqn:E2; simpl; try reflexivity.
    apply Z.leb_le in E1, E2. lia.
Qed.

Lemma any_spec (img : image Z) :
  any img = true <-> exists v, inside (GetSize img) v = true /\ pix img v <> 0.
Proof.
  unfold any. rewrite existsb_exists. split.
  - intros [v [Hv H]]. apply In_indices in Hv. apply negb_true_iff, Z.eqb_neq in H.
    exists v. tauto.
  - intros [v [Hv H]]. exists v. split; [apply In_indices; exact Hv |].
    apply negb_true_iff, Z.eqb_neq. exact H.
Qed.

Lemma dilated_binary (img : image Z) (kernel : list index) (q : index) :
  is_binary img = true ->
  dilated img kernel q = 0 \/ dilated img kernel q = 1.
Proof.
  intros Hb. unfold dilated. destruct (existsb _ kernel); [right; reflexivity |].
  apply is_binary_vox; exact Hb.
Qed.

(** The test [arr(sitk.And(comp, rib_d)).any()] for the component of
    label [L]. *)
Lemma touch_test_spec `{SimpleITK} (cc rib : image Z) (L : Z) :
  is_binary rib = true ->
  (any (And (to_u8 (BinaryThreshold cc L L)) (BinaryDilate rib (1, 1, 1))) = true <->
   exists w, inside (GetSize cc) w = true /\ pix cc w = L /\
             pix (BinaryDilate rib (1, 1, 1)) w <> 0).
Proof.
  intros Hb. rewrite any_spec.
  change (GetSize (And (to_u8 (BinaryThreshold cc L L)) (BinaryDilate rib (1, 1, 1))))
    with (GetSize cc).
  split; intros [w [Hin Hw]]; exists w; (split; [exact Hin |]).
  - unfold And in Hw. cbn [pix] in Hw. rewrite component_mask in Hw.
    apply land_nonzero in Hw. destruct Hw as [Hc Hd].
    destruct (pix cc w =? L) eqn:E; [| congruence].
    apply Z.eqb_eq in E. tauto.
  - destruct Hw as [Hc Hd]. unfold And. cbn [pix]. rewrite component_mask.
    apply Z.eqb_eq in Hc. rewrite Hc.
    unfold BinaryDilate in Hd |- *. cbn [pix] in Hd |- *.
    destruct (dilated_binary rib (sitkBall (1, 1, 1)) w Hb) as [E | E];
      rewrite E in Hd |- *; [congruence | discriminate].
Qed.

Lemma lor_nonzero (a b : Z) : Z.lor a b <> 0 <-> a <> 0 \/ b <> 0.
Proof. rewrite Z.lor_eq_0_iff. lia. Qed.

Lemma keep_loop_spec (cc : image Z) (touches : Z -> bool) (ls : list Z)
  (out0 : image Z) (v : index) :
  pix (fold_left (fun out L =>
         if touches L then Or out (to_u8 (BinaryThreshold cc L L)) else out)
         ls out0) v <> 0 <->
  pix out0 v <> 0 \/ exists L, In L ls /\ pix cc v = L /\ touches L = true.
Proof.
  revert out0. induction ls as [| L ls IH]; intros out0; simpl.
  - split; [auto | intros [H | [L [[] _]]]; exact H].
  - rewrite IH. destruct (touches L) eqn:E.
    + unfold Or at 1. cbn [pix]. rewrite lor_nonzero, component_mask. split.
      * intros [[H | H] | [L' [HL' H]]]; [left; exact H | | right; exists L'; tauto].
        destruct (pix cc v =? L) eqn:Ev; [| congruence].
        apply Z.eqb_eq in Ev. right. exists L. tauto.
      * intros [H | [L' [[<- | HL'] [Hv Ht]]]]; [tauto | | right; exists L'; tauto].
        left. right. apply Z.eqb_eq in Hv. rewrite Hv. discriminate.
    + split.
      * intros [H | [L' [HL' H]]]; [tauto | right; exists L'; tauto].
      * intros [H | [L' [[<- | HL'] [Hv Ht]]]]; [tauto | congruence | right; exists L'; tauto].
Qed.

(** C9. The filter keeps a voxel of the grown mask exactly when the
    connected component it belongs to (the voxels carrying its label)
    shares a voxel with the rib dilated by one voxel; a component that
    does not touch the dilated rib is removed as a whole.  An empty grown
    mask is returned as it is. *)
Theorem component_filter_exact `{SimpleITK} (grow rib : image Z) :
  is_binary rib = true ->
  (any grow = false -> keep_growth_touching_rib grow rib = Ok grow) /\
  (any grow = true ->
   forall cc, ConnectedComponent grow = Ok cc ->
   exists out, keep_growth_touching_rib grow rib = Ok out /\
     forall v, pix out v <> 0 <->
       pix cc v <> 0 /\
       exists w, inside (GetSize cc) w = true /\ pix cc w = pix cc v /\
                 pix (BinaryDilate rib (1, 1, 1)) w <> 0).
Proof.
  intros Hb. unfold keep_growth_touching_rib. split.
  - intros ->. reflexivity.
  - intros -> cc ->. simpl. eexists. split; [reflexivity |].
    intros v.
    rewrite (keep_loop_spec cc
               (fun L => any (And (to_u8 (BinaryThreshold cc L L))
                                  (BinaryDilate rib (1, 1, 1))))).
    simpl. split.
    + intros [[] | [L [HL [Hv Ht]]]]; [reflexivity |].
      apply GetLabels_spec in HL. destruct HL as [HL _].
      apply touch_test_spec in Ht; [| exact Hb].
      subst L. split; [exact HL | exact Ht].
    + intros [Hv [w (Hin & Hw & Hd)]]. right. exists (pix cc v).
      split; [apply GetLabels_spec; split; [exact Hv | exists w; tauto] |].
      split; [reflexivity |].
      apply touch_test_spec; [exact Hb | exists w; tauto].
Qed.

Lemma component_filter_exact_witness :
  exists out,
    @keep_growth_touching_rib small_volume_filters grow_two_blobs rib_column = Ok out /\
    pix out (0, 2, 0) <> 0 /\ pix out (0, 0, 0) = 0.
Proof.
  destruct (proj2 (@component_filter_exact small_volume_filters grow_two_blobs
                     rib_column eq_refl) eq_refl (flood_label grow_two_blobs) eq_refl)
    as [out [Hout Hiff]].
  exists out. split; [exact Hout |]. split.
  - apply Hiff. split; [vm_compute; discriminate |].
    exists (0, 2, 0). repeat split. vm_compute. discriminate.
  - destruct (Z.eq_dec (pix out (0, 0, 0)) 0) as [E | N]; [exact E | exfalso].
    apply Hiff in N. destruct N as [_ [w (Hin & Hw & Hd)]].
    apply In_indices in Hin.
    repeat (destruct Hin as [<- | Hin]; [vm_compute in Hw, Hd; congruence |]).
    destruct Hin.
Defined.

(** ** The repair of one rib, step by step *)

Section Repair.
Context `{SimpleITK}.
Variables (ct : image Q) (rib_path out_path : string) (w : world).
Variables (rib_raw spine skel : image Z).

Let rib : image Z := rib_in_ct ct rib_raw.
Let rib_filename : string := basename rib_path.
Let active_cutoff : Q := fst (fst (side_selection rib_filename)).
Let side_tag : string := snd (fst (side_selection rib_filename)).
Let lower_hu : Q := lower_hu_of ct rib (snd (side_selection rib_filename)).
Let endpoints : list point := endpoints_from_skeleton skel.
Let growth_candidates : list (point * pyfloat) :=
  growth_candidates_of ct rib endpoints active_cutoff.
Let info : log_line :=
  InfoEndpoints rib_filename side_tag (length endpoints) active_cutoff
    (length growth_candidates).

Hypothesis Hread : files w !! rib_path = Some rib_raw.
Hypothesis Hspine : build_spine_mask ct = Ok spine.
Hypothesis Hskel : skeleton rib = Ok skel.

(** What one call does, once the file is read, the spine mask built and
    the rib thinned. *)
Lemma repair_first_rib_run :
  repair_first_rib ct rib_path out_path w =
  match growth_candidates with
  | [] =>
      (Ok tt, World (<[out_path := rib_raw]> (files w))
                    (stdout w ++ [info; SkipNoCandidates]))
  | _ =>
      let started := InfoGrowth lower_hu (length growth_candidates) in
      match grow_each ct rib spine lower_hu growth_candidates (zeros_like ct) with
      | Ok grow_union =>
          (Ok tt, World (<[out_path := written_on_success ct rib_raw grow_union]> (files w))
                        (stdout w ++ [info; started; OkSaved out_path]))
      | Raise e => (Raise e, World (files w) (stdout w ++ [info; started]))
      end
  end.
Proof using All.
  unfold written_on_success, rib_in_ct in *.
  subst info growth_candidates endpoints lower_hu active_cutoff side_tag rib_filename.
  unfold repair_first_rib, read_img, lift, print, write_img. cbn [bind io_monad].
  rewrite Hread. fold rib. rewrite Hspine.
  destruct (side_selection (basename rib_path)) as [[cutoff tag] floor].
  rewrite Hskel. cbn [fst snd files stdout].
  destruct (growth_candidates_of ct rib (endpoints_from_skeleton skel) cutoff) as [| c cs];
    cbn [fst snd files stdout].
  - rewrite <- app_assoc. reflexivity.
  - destruct (grow_each ct rib spine (lower_hu_of ct rib floor) (c :: cs) (zeros_like ct));
      cbn [fst snd files stdout]; rewrite <- !app_assoc; reflexivity.
Qed.
End Repair.



(** ** Monotonicity of the repair *)




Lemma lor_binary (a b : Z) :
  (a = 0 \/ a = 1) -> (b = 0 \/ b = 1) -> Z.lor a b = 0 \/ Z.lor a b = 1.
Proof. intros [-> | ->] [-> | ->]; simpl; auto. Qed.

Lemma Or_binary (a b : image Z) :
  everywhere_binary a -> everywhere_binary b -> everywhere_binary (Or a b).
Proof. intros Ha Hb v. unfold Or; simpl. apply lor_binary; [apply Ha | apply Hb]. Qed.

Lemma zeros_binary {A} (ref : image A) : everywhere_binary (zeros_like ref).
Proof. intros v. left. reflexivity. Qed.

Lemma region_grow_local_binary (ct : image Q) (seeds : list point) (lo hi : Q)
  (corridor : image Z) :
  everywhere_binary (region_grow_local ct seeds lo hi corridor).
Proof.
  unfold region_grow_local. destruct seeds; [apply zeros_binary |].
  intros v. apply to_u8_binary.
Qed.

Lemma keep_growth_binary `{SimpleITK} (grow rib out : image Z) :
  everywhere_binary grow -> keep_growth_touching_rib grow rib = Ok out ->
  everywhere_binary out.
Proof.
  intros Hg. unfold keep_growth_touching_rib.
  destruct (negb (any grow)); simpl.
  - intros E; inversion E; subst; exact Hg.
  - destruct (ConnectedComponent grow) as [cc | e]; simpl; [| discriminate].
    intros E; inversion E; subst; clear E.
    generalize (zeros_binary grow). generalize (zeros_like grow).
    induction (GetLabels cc) as [| L ls IH]; intros out0 H0; simpl; [exact H0 |].
    apply IH. destruct (any _); [| exact H0].
    apply Or_binary; [exact H0 | intros v; apply to_u8_binary].
Qed.

Lemma grow_each_binary `{SimpleITK} (ct : image Q) (rib spine : image Z) (lower_hu : Q)
  (candidates : list (point * pyfloat)) (acc out : image Z) :
  everywhere_binary acc ->
  grow_each ct rib spine lower_hu candidates acc = Ok out -> everywhere_binary out.
Proof.
  revert acc. induction candidates as [| [ep frac] cs IH]; intros acc Hacc; simpl.
  - intros E; inversion E; subst; exact Hacc.
  - destruct (grow_endpoint ct rib spine lower_hu ep) as [growth | e] eqn:Eg; simpl;
      [| discriminate].
    apply IH. apply Or_binary; [exact Hacc |].
    unfold grow_endpoint in Eg.
    destruct (corridor_for_tip rib spine ep R_RIB_MM_R R_TIP_MM_R) as [cor | e];
      cbn [bind result_monad] in Eg; [| discriminate].
    eapply keep_growth_binary; [| exact Eg]. apply region_grow_local_binary.
Qed.


Lemma repair_first_rib_ok_inv `{SimpleITK} (ct : image Q) (rib_path out_path : string)
  (w : world) (rib_raw : image Z) :
  files w !! rib_path = Some rib_raw ->
  fst (repair_first_rib ct rib_path out_path w) = Ok tt ->
  exists spine skel,
    build_spine_mask ct = Ok spine /\ skeleton (rib_in_ct ct rib_raw) = Ok skel.
Proof.
  intros Hread. unfold repair_first_rib, read_img, lift. cbn [bind io_monad].
  rewrite Hread. unfold rib_in_ct.
  destruct (build_spine_mask ct) as [spine | e]; [| discriminate].
  destruct (side_selection (basename rib_path)) as [[cutoff tag] floor].
  destruct (skeleton (to_u8 (resample_like (to_u8 rib_raw) ct))) as [skel | e];
    [| discriminate].
  intros _. exists spine, skel. split; reflexivity.
Qed.






(** ** Failure of the growth of one endpoint *)





(** * Further properties of the script *)

(** ** What one call does to the files *)

Lemma repair_first_rib_outcome `{SimpleITK} (ct : image Q) (rib_path out_path : string)
  (w : world) :
  (exists e, fst (repair_first_rib ct rib_path out_path w) = Raise e /\
             files (snd (repair_first_rib ct rib_path out_path w)) = files w) \/
  (exists img, fst (repair_first_rib ct rib_path out_path w) = Ok tt /\
               files (snd (repair_first_rib ct rib_path out_path w))
                 = <[out_path := img]> (files w)).
Proof.
  destruct (files w !! rib_path) as [rib_raw |] eqn:Hread.
  - destruct (build_spine_mask ct) as [spine | e] eqn:Hspine.
    + destruct (skeleton (rib_in_ct ct rib_raw)) as [skel | e] eqn:Hskel.
      * pose proof (repair_first_rib_run ct rib_path out_path w rib_raw spine skel
                      Hread Hspine Hskel) as Hrun.
        cbv zeta in Hrun. rewrite Hrun. clear Hrun.
        destruct (growth_candidates_of ct _ _ _) as [| c cs].
        -- right. eexists. split; reflexivity.
        -- destruct (grow_each ct _ _ _ (c :: cs) _) as [g | e].
           ++ right. eexists. split; reflexivity.
           ++ left. exists e. split; reflexivity.
      * left. exists e. unfold repair_first_rib, read_img, lift. cbn [bind io_monad].
        rewrite Hread, Hspine. unfold rib_in_ct in Hskel.
        destruct (side_selection (basename rib_path)) as [[cutoff tag] floor].
        rewrite Hskel. split; reflexivity.
    + left. exists e. unfold repair_first_rib, read_img, lift. cbn [bind io_monad].
      rewrite Hread, Hspine. split; reflexivity.
  - left. eexists. unfold repair_first_rib, read_img. cbn [bind io_monad].
    rewrite Hread. split; reflexivity.
Qed.

(** A call that raises has written nothing: the files are as before. *)
Theorem repair_failure_writes_nothing `{SimpleITK} (ct : image Q)
  (rib_path out_path : string) (w : world) (e : exn) :
  fst (repair_first_rib ct rib_path out_path w) = Raise e ->
  files (snd (repair_first_rib ct rib_path out_path w)) = files w.
Proof.
  intros Hr.
  destruct (repair_first_rib_outcome ct rib_path out_path w)
    as [[e' [_ Hf]] | [img [Hok _]]]; [exact Hf | congruence].
Qed.

Lemma repair_failure_writes_nothing_witness :
  let w := World (<["ribs/rib_left_1.nii.gz" := rib_slab]> ∅) [] in
  files (snd (@repair_first_rib filters_distance_raises ct_slab
                "ribs/rib_left_1.nii.gz" "out/rib_left_1.nii.gz" w)) = files w.
Proof.
  intros w.
  apply (@repair_failure_writes_nothing filters_distance_raises ct_slab
           "ribs/rib_left_1.nii.gz" "out/rib_left_1.nii.gz" w
           (RuntimeError "distance map failed")).
  vm_compute. reflexivity.
Defined.



(** ** The mask that is written *)

Lemma everywhere_binary_is_binary (img : image Z) :
  everywhere_binary img -> is_binary img = true.
Proof.
  intros Hb. unfold is_binary. apply forallb_forall. intros v _.
  apply orb_true_iff. rewrite !Z.eqb_eq. apply Hb.
Qed.

Lemma closing_binary `{SimpleITK} (img : image Z) (radius : index) :
  everywhere_binary img -> everywhere_binary (BinaryMorphologicalClosing img radius).
Proof.
  intros Hb v. unfold BinaryMorphologicalClosing; cbn [pix].
  destruct (dilated img (sitkBall radius) v =? 1) eqn:E.
  - destruct (forallb _ (sitkBall radius)); auto.
  - apply dilated_binary, everywhere_binary_is_binary, Hb.
Qed.

Lemma resample_binary {A} (moving : image Z) (fixed : image A) :
  everywhere_binary moving -> everywhere_binary (resample_like moving fixed).
Proof.
  intros Hb v. unfold resample_like; cbn [pix].
  destruct (inside (GetSize moving) _); [apply Hb | left; reflexivity].
Qed.

Lemma written_on_success_binary `{SimpleITK} (ct : image Q) (rib_raw grow_union : image Z) :
  everywhere_binary grow_union ->
  everywhere_binary (written_on_success ct rib_raw grow_union).
Proof.
  intros Hg. unfold written_on_success. apply resample_binary, closing_binary, Or_binary.
  - intros v. apply to_u8_binary.
  - exact Hg.
Qed.

(** Whatever path is taken, the mask written by a call that returns
    normally is on the grid of the rib file that was read (its size,
    spacing and origin), not on the grid of the CT. *)
Theorem repair_output_on_input_grid `{SimpleITK} (ct : image Q)
  (rib_path out_path : string) (w : world) (rib_raw : image Z) :
  files w !! rib_path = Some rib_raw ->
  fst (repair_first_rib ct rib_path out_path w) = Ok tt ->
  exists out,
    files (snd (repair_first_rib ct rib_path out_path w)) !! out_path = Some out /\
    geom out = geom rib_raw.
Proof.
  intros Hread Hok.
  destruct (repair_first_rib_ok_inv ct rib_path out_path w rib_raw Hread Hok)
    as [spine [skel [Hspine Hskel]]].
  pose proof (repair_first_rib_run ct rib_path out_path w rib_raw spine skel
                Hread Hspine Hskel) as Hrun.
  cbv zeta in Hrun. rewrite Hrun in *. clear Hrun.
  destruct (growth_candidates_of ct _ _ _) as [| c cs].
  - exists rib_raw. split; [apply lookup_insert_eq | reflexivity].
  - destruct (grow_each ct _ _ _ (c :: cs) _) as [g | e]; [| discriminate Hok].
    eexists. split; [apply lookup_insert_eq | reflexivity].
Qed.

Lemma repair_output_on_input_grid_witness :
  let w := World (<["ribs/rib_left_1.nii.gz" := rib_file_long]> ∅) [] in
  exists out,
    files (snd (@repair_first_rib small_volume_filters ct_column
                  "ribs/rib_left_1.nii.gz" "out/rib_left_1.nii.gz" w))
      !! "out/rib_left_1.nii.gz" = Some out /\
    geom out = geom rib_file_long.
Proof.
  intros w.
  refine (@repair_output_on_input_grid small_volume_filters ct_column
            "ribs/rib_left_1.nii.gz" "out/rib_left_1.nii.gz" w rib_file_long _ _).
  - apply lookup_insert_eq.
  - vm_compute. reflexivity.
Defined.

(** When growth takes place, the mask written holds only the values 0 and
    1, whatever values the rib file used for its foreground (on the skip
    path the file is written back with its own values). *)
Theorem growth_output_is_binary `{SimpleITK} (ct : image Q)
  (rib_path out_path : string) (w : world) (rib_raw spine skel : image Z) :
  files w !! rib_path = Some rib_raw ->
  build_spine_mask ct = Ok spine ->
  skeleton (rib_in_ct ct rib_raw) = Ok skel ->
  growth_candidates_of ct (rib_in_ct ct rib_raw) (endpoints_from_skeleton skel)
    (fst (fst (side_selection (basename rib_path)))) <> [] ->
  fst (repair_first_rib ct rib_path out_path w) = Ok tt ->
  exists out,
    files (snd (repair_first_rib ct rib_path out_path w)) !! out_path = Some out /\
    everywhere_binary out.
Proof.
  intros Hread Hspine Hskel Hc Hok.
  pose proof (repair_first_rib_run ct rib_path out_path w rib_raw spine skel
                Hread Hspine Hskel) as Hrun.
  cbv zeta in Hrun. rewrite Hrun in *. clear Hrun.
  destruct (growth_candidates_of ct _ _ _) as [| c cs]; [congruence |].
  destruct (grow_each ct _ _ _ (c :: cs) _) as [g | e] eqn:Eg; [| discriminate Hok].
  eexists. split; [apply lookup_insert_eq |].
  apply written_on_success_binary.
  apply (grow_each_binary _ _ _ _ _ _ _ (zeros_binary ct) Eg).
Qed.

Lemma growth_output_is_binary_witness :
  let w := World (<["ribs/rib_left_1.nii.gz" := rib_column]> ∅) [] in
  exists out,
    files (snd (@repair_first_rib small_volume_filters ct_column
                  "ribs/rib_left_1.nii.gz" "out/rib_left_1.nii.gz" w))
      !! "out/rib_left_1.nii.gz" = Some out /\
    everywhere_binary out.
Proof.
  intros w.
  refine (@growth_output_is_binary small_volume_filters ct_column
            "ribs/rib_left_1.nii.gz" "out/rib_left_1.nii.gz" w rib_column
            (zeros_like ct_column) (rib_in_ct ct_column rib_column)
            _ eq_refl eq_refl _ _).
  - apply lookup_insert_eq.
  - vm_compute. discriminate.
  - vm_compute. reflexivity.
Defined.

(** ** From the detector to the classifier *)





Lemma fraction_range (c n : nat) :
  (c <= n)%nat -> (0 < n)%nat ->
  (0 <= inject_Z (Z.of_nat c) / inject_Z (Z.of_nat n))%Q /\
  (inject_Z (Z.of_nat c) / inject_Z (Z.of_nat n) <= 1)%Q /\
  ((c < n)%nat -> (inject_Z (Z.of_nat c) / inject_Z (Z.of_nat n) < 1)%Q).
Proof.
  intros Hc Hn.
  assert (Hpos : (0 < inject_Z (Z.of_nat n))%Q).
  { change 0%Q with (inject_Z 0). rewrite <- Zlt_Qlt. lia. }
  split; [| split].
  - apply Qle_shift_div_l; [exact Hpos |]. rewrite Qmult_0_l.
    change 0%Q with (inject_Z 0). rewrite <- Zle_Qle. lia.
  - apply Qle_shift_div_r; [exact Hpos |]. rewrite Qmult_1_l.
    rewrite <- Zle_Qle. lia.
  - intros Hlt. apply Qlt_shift_div_r; [exact Hpos |]. rewrite Qmult_1_l.
    rewrite <- Zlt_Qlt. lia.
Qed.

(** The value returned by the classifier is [nan] or a number between 0
    and 1. *)
Theorem classifier_value_range (ct : image Q) (ribs_u8 : image Z) (ep_phys : point)
  (nbhd_mm bone_hu y_frac_min x_tol_mm : Q) :
  endpoint_is_posterior_missing_tubercle ct ribs_u8 ep_phys
    nbhd_mm bone_hu y_frac_min x_tol_mm = NaN \/
  exists q,
    endpoint_is_posterior_missing_tubercle ct ribs_u8 ep_phys
      nbhd_mm bone_hu y_frac_min x_tol_mm = Finite q /\ (0 <= q)%Q /\ (q <= 1)%Q.
Proof.
  unfold endpoint_is_posterior_missing_tubercle.
  destruct (negb (anatomical_gate ct ep_phys y_frac_min x_tol_mm)).
  - right. exists 1%Q. repeat split; discriminate.
  - unfold neighbourhood_bone_fraction.
    destruct (GetSize ct) as [[X Y] Zs].
    match goal with |- context [List.filter ?f ?roi] =>
      set (other_bone := f); set (l := roi) end.
    destruct l as [| a l'] eqn:El; [left; reflexivity | right].
    rewrite <- El. eexists. split; [reflexivity |].
    assert (Hn : (0 < length l)%nat) by (rewrite El; simpl; lia).
    pose proof (List.filter_length_le other_bone l) as Hc.
    destruct (fraction_range _ _ Hc Hn) as (H0 & H1 & _). split; assumption.
Qed.




(** ** Spine mask *)

Lemma keep_loop_geom (cc : image Z) (touches : Z -> bool) (ls : list Z) (out0 : image Z) :
  geom (fold_left (fun out L =>
          if touches L then Or out (to_u8 (BinaryThreshold cc L L)) else out)
          ls out0) = geom out0.
Proof.
  revert out0. induction ls as [| L ls IH]; intros out0; simpl; [reflexivity |].
  rewrite IH. destruct (touches L); reflexivity.
Qed.

Lemma keep_loop_binary (cc : image Z) (touches : Z -> bool) (ls : list Z) (out0 : image Z) :
  everywhere_binary out0 ->
  everywhere_binary (fold_left (fun out L =>
          if touches L then Or out (to_u8 (BinaryThreshold cc L L)) else out)
          ls out0).
Proof.
  revert out0. induction ls as [| L ls IH]; intros out0 H0; simpl; [exact H0 |].
  apply IH. destruct (touches L); [| exact H0].
  apply Or_binary; [exact H0 | intros v; apply to_u8_binary].
Qed.

Lemma dilate_binary `{SimpleITK} (img : image Z) (radius : index) :
  everywhere_binary img -> everywhere_binary (BinaryDilate img radius).
Proof.
  intros Hb v. unfold BinaryDilate; cbn [pix].
  apply dilated_binary, everywhere_binary_is_binary, Hb.
Qed.

Lemma dilate_nonzero `{SimpleITK} (img : image Z) (radius v : index) :
  pix (BinaryDilate img radius) v <> 0 ->
  exists u, inside (GetSize img) u = true /\ pix img u <> 0 /\
            (u = v \/ exists b, In b (sitkBall radius) /\ u = isub v b).
Proof.
  unfold BinaryDilate, dilated; cbn [pix].
  destruct (existsb _ (sitkBall radius)) eqn:E.
  - intros _. apply existsb_exists in E. destruct E as [b [Hb E]].
    apply Z.eqb_eq in E. unfold vox in E.
    destruct (inside (GetSize img) (isub v b)) eqn:Hin; [| discriminate E].
    exists (isub v b). split; [exact Hin |]. split; [rewrite E; discriminate |].
    right. exists b. auto.
  - unfold vox. destruct (inside (GetSize img) v) eqn:Hin; [| congruence].
    intros Hv. exists v. auto.
Qed.

(** The spine mask is a 0/1 mask on the grid of the CT; it is empty when
    no voxel reaches 480 HU (no labelling is attempted then), and each of
    its voxels is, or is one ball offset away from, a voxel of a labelled
    component that passed the midline and height test. *)
Theorem spine_mask_sound `{SimpleITK} (ct : image Q) (spine : image Z) :
  build_spine_mask ct = Ok spine ->
  geom spine = geom ct /\
  everywhere_binary spine /\
  (any (to_u8 (ge_const ct SPINE_HU)) = false -> spine = zeros_like ct) /\
  (forall cc, ConnectedComponent (to_u8 (ge_const ct SPINE_HU)) = Ok cc ->
   forall v, pix spine v <> 0 ->
   exists u, (u = v \/ exists b, In b (sitkBall (1, 1, 1)) /\ u = isub v b) /\
             pix cc u <> 0 /\ spine_label_qualifies ct cc (pix cc u) = true).
Proof.
  unfold build_spine_mask.
  destruct (any (to_u8 (ge_const ct SPINE_HU))) eqn:Hany; cbn [negb bind ret result_monad].
  - destruct (ConnectedComponent (to_u8 (ge_const ct SPINE_HU))) as [cc | e];
      cbn [bind ret result_monad]; [| discriminate].
    change (fold_left _ (GetLabels cc) (zeros_like ct))
      with (fold_left (fun out L =>
              if spine_label_qualifies ct cc L
              then Or out (to_u8 (BinaryThreshold cc L L)) else out)
              (GetLabels cc) (zeros_like ct)).
    set (out := fold_left _ (GetLabels cc) (zeros_like ct)).
    assert (Hgeom : geom out = geom ct)
      by (subst out; apply (keep_loop_geom cc (spine_label_qualifies ct cc))).
    assert (Hbin : everywhere_binary out)
      by (subst out; apply (keep_loop_binary cc (spine_label_qualifies ct cc)), zeros_binary).
    assert (Hout : forall u, pix out u <> 0 ->
              pix cc u <> 0 /\ spine_label_qualifies ct cc (pix cc u) = true).
    { intros u Hu. subst out.
      apply (keep_loop_spec cc (spine_label_qualifies ct cc)) in Hu.
      destruct Hu as [Hu | [L (HL & Hc & Hq)]]; [exfalso; apply Hu; reflexivity |].
      apply GetLabels_spec in HL. destruct HL as [HL _]. subst L. auto. }
    clearbody out. intros E. injection E as Hs. subst spine.
    split; [destruct (any out); exact Hgeom |].
    split; [destruct (any out); [apply dilate_binary |]; exact Hbin |].
    split; [discriminate |].
    intros cc' Hcc v Hv. injection Hcc as Hcc. subst cc'.
    destruct (any out).
    + apply dilate_nonzero in Hv. destruct Hv as [u (_ & Hu & Hpos)].
      exists u. split; [exact Hpos | apply Hout; exact Hu].
    + exists v. split; [left; reflexivity | apply Hout; exact Hv].
  - intros E. injection E as Hs. subst spine. split; [reflexivity |].
    split; [apply zeros_binary |]. split; [reflexivity |].
    intros cc _ v Hv. exfalso. apply Hv. reflexivity.
Qed.

Lemma spine_mask_sound_witness :
  exists spine,
    @build_spine_mask small_volume_filters ct_tall_column = Ok spine /\
    geom spine = geom ct_tall_column /\ everywhere_binary spine.
Proof.
  destruct (@build_spine_mask small_volume_filters ct_tall_column) as [spine | e] eqn:E.
  - exists spine. split; [reflexivity |].
    pose proof (@spine_mask_sound small_volume_filters ct_tall_column spine E) as S.
    split; [exact (proj1 S) | exact (proj1 (proj2 S))].
  - exfalso. unfold build_spine_mask in E.
    destruct (negb (any (to_u8 (ge_const ct_tall_column SPINE_HU))));
      cbn [bind ret result_monad ConnectedComponent small_volume_filters] in E;
      discriminate E.
Defined.

Lemma fold_max_bounds (z : Z) (zs : list Z) (hi : Z) :
  z <= hi -> (forall x, In x zs -> x <= hi) ->
  z <= fold_right Z.max z zs <= hi.
Proof.
  intros Hz Hzs. induction zs as [| a zs IH]; simpl; [lia |].
  assert (Ha : a <= hi) by (apply Hzs; left; reflexivity).
  assert (IH' : z <= fold_right Z.max z zs <= hi)
    by (apply IH; intros x Hx; apply Hzs; right; exact Hx).
  lia.
Qed.

Lemma fold_min_bounds (z : Z) (zs : list Z) (lo : Z) :
  lo <= z -> (forall x, In x zs -> lo <= x) ->
  lo <= fold_right Z.min z zs <= z.
Proof.
  intros Hz Hzs. induction zs as [| a zs IH]; simpl; [lia |].
  assert (Ha : lo <= a) by (apply Hzs; left; reflexivity).
  assert (IH' : lo <= fold_right Z.min z zs <= z)
    by (apply IH; intros x Hx; apply Hzs; right; exact Hx).
  lia.
Qed.

(** The height of a bounding box is between 0 and the number of slices. *)
Lemma bounding_box_height (cc : image Z) (L : Z) :
  0 <= GetBoundingBox_sz cc L <= Z.max 0 (iz (GetSize cc)).
Proof.
  unfold GetBoundingBox_sz.
  assert (Hz : forall x, In x (map iz (label_voxels cc L)) ->
                         0 <= x <= iz (GetSize cc) - 1).
  { intros x Hx. apply in_map_iff in Hx. destruct Hx as [v [<- Hv]].
    unfold label_voxels in Hv. apply filter_In in Hv. destruct Hv as [Hv _].
    apply In_indices, inside_spec in Hv. lia. }
  destruct (map iz (label_voxels cc L)) as [| z zs]; [lia |].
  assert (H0 : 0 <= z <= iz (GetSize cc) - 1) by (apply Hz; left; reflexivity).
  pose proof (fold_max_bounds z zs (iz (GetSize cc) - 1) (proj2 H0)
                (fun x Hx => proj2 (Hz x (or_intror Hx)))) as Hmax.
  pose proof (fold_min_bounds z zs 0 (proj1 H0)
                (fun x Hx => proj1 (Hz x (or_intror Hx)))) as Hmin.
  lia.
Qed.

Lemma keep_loop_none (cc : image Z) (touches : Z -> bool) (ls : list Z) (out0 : image Z) :
  (forall L, touches L = false) ->
  fold_left (fun out L =>
    if touches L then Or out (to_u8 (BinaryThreshold cc L L)) else out) ls out0 = out0.
Proof.
  intros Hq. revert out0. induction ls as [| L ls IH]; intros out0; simpl; [reflexivity |].
  rewrite Hq. apply IH.
Qed.

(** A CT whose extent along z is below 60 mm never gets a spine mask:
    no component can be tall enough, so the corridor is built without
    spine clearance. *)
Theorem short_volume_has_no_spine `{SimpleITK} (ct : image Q) (spine : image Z) :
  (forall cc, ConnectedComponent (to_u8 (ge_const ct SPINE_HU)) = Ok cc ->
              GetSize cc = GetSize ct) ->
  (0 <= pz (GetSpacing ct))%Q ->
  (inject_Z (iz (GetSize ct)) * pz (GetSpacing ct) < SPINE_Z_EXT_MM)%Q ->
  build_spine_mask ct = Ok spine ->
  spine = zeros_like ct /\ any spine = false.
Proof.
  intros Hsize Hsp Hshort Hb.
  assert (Hz : any (zeros_like ct) = false).
  { destruct (any (zeros_like ct)) eqn:E; [| reflexivity].
    apply any_spec in E. destruct E as [v [_ Hv]]. exfalso. apply Hv. reflexivity. }
  unfold build_spine_mask in Hb.
  destruct (any (to_u8 (ge_const ct SPINE_HU))); cbn [negb bind ret result_monad] in Hb.
  - destruct (ConnectedComponent (to_u8 (ge_const ct SPINE_HU))) as [cc | e] eqn:Hcc;
      cbn [bind ret result_monad] in Hb; [| discriminate Hb].
    assert (Hq : forall L, spine_label_qualifies ct cc L = false).
    { intros L. unfold spine_label_qualifies. apply andb_false_iff. right.
      destruct (Qle_bool SPINE_Z_EXT_MM _) eqn:E; [| reflexivity].
      apply Qle_bool_iff in E. exfalso.
      pose proof (bounding_box_height cc L) as Hh.
      rewrite (Hsize cc eq_refl) in Hh.
      assert (Hle : (inject_Z (GetBoundingBox_sz cc L) * pz (GetSpacing ct)
                     <= inject_Z (Z.max 0 (iz (GetSize ct))) * pz (GetSpacing ct))%Q).
      { apply Qmult_le_compat_r; [| exact Hsp]. rewrite <- Zle_Qle. lia. }
      assert (Hlt : (inject_Z (Z.max 0 (iz (GetSize ct))) * pz (GetSpacing ct)
                     < SPINE_Z_EXT_MM)%Q).
      { destruct (Z_lt_le_dec (iz (GetSize ct)) 0) as [Hneg | Hpos].
        - rewrite Z.max_l by lia. rewrite Qmult_0_l. reflexivity.
        - rewrite Z.max_r by lia. exact Hshort. }
      apply (Qlt_not_le _ _ Hlt). eapply Qle_trans; [exact E | exact Hle]. }
    change (fold_left _ (GetLabels cc) (zeros_like ct))
      with (fold_left (fun out L =>
              if spine_label_qualifies ct cc L
              then Or out (to_u8 (BinaryThreshold cc L L)) else out)
              (GetLabels cc) (zeros_like ct)) in Hb.
    assert (Hfold : fold_left (fun out L =>
              if spine_label_qualifies ct cc L
              then Or out (to_u8 (BinaryThreshold cc L L)) else out)
              (GetLabels cc) (zeros_like ct) = zeros_like ct).
    { apply keep_loop_none. exact Hq. }
    rewrite Hfold, Hz in Hb. injection Hb as <-. split; [reflexivity | exact Hz].
  - injection Hb as <-. split; [reflexivity | exact Hz].
Qed.

Lemma short_volume_has_no_spine_witness :
  exists spine,
    @build_spine_mask small_volume_filters ct_all_dense = Ok spine /\
    any spine = false.
Proof.
  destruct (@build_spine_mask small_volume_filters ct_all_dense) as [spine | e] eqn:E.
  - exists spine. split; [reflexivity |].
    refine (proj2 (@short_volume_has_no_spine small_volume_filters ct_all_dense spine
                     _ _ _ E)).
    + intros cc Hcc. injection Hcc as <-. reflexivity.
    + discriminate.
    + reflexivity.
  - exfalso. unfold build_spine_mask in E.
    destruct (negb (any (to_u8 (ge_const ct_all_dense SPINE_HU))));
      cbn [bind ret result_monad ConnectedComponent small_volume_filters] in E;
      discriminate E.
Defined.

(** ** Percentiles inside the mask *)

Lemma In_insert_sorted (x a : Q) (l : list Q) :
  In x (insert_sorted a l) <-> x = a \/ In x l.
Proof.
  induction l as [| y l IH]; simpl; [intuition congruence |].
  destruct (Qle_bool a y); simpl; [intuition congruence |].
  rewrite IH. intuition congruence.
Qed.

Lemma In_sort_values (x : Q) (l : list Q) : In x (sort_values l) <-> In x l.
Proof.
  induction l as [| a l IH]; simpl; [tauto |].
  rewrite In_insert_sorted, IH. intuition congruence.
Qed.

Lemma length_insert_sorted (a : Q) (l : list Q) :
  length (insert_sorted a l) = S (length l).
Proof.
  induction l as [| y l IH]; simpl; [reflexivity |].
  destruct (Qle_bool a y); simpl; [reflexivity | rewrite IH; reflexivity].
Qed.

Lemma length_sort_values (l : list Q) : length (sort_values l) = length l.
Proof.
  induction l as [| a l IH]; simpl; [reflexivity |].
  rewrite length_insert_sorted, IH. reflexivity.
Qed.

Lemma insert_sorted_sorted (a : Q) (l : list Q) :
  Sorted.StronglySorted Qle l -> Sorted.StronglySorted Qle (insert_sorted a l).
Proof.
  induction l as [| y l IH]; intros Hs; simpl.
  - constructor; constructor.
  - destruct (Qle_bool a y) eqn:E.
    + apply Qle_bool_iff in E. constructor; [exact Hs |].
      constructor; [exact E |].
      inversion Hs as [| ? ? _ Hall]; subst.
      apply List.Forall_forall. intros x Hx. rewrite List.Forall_forall in Hall.
      apply Qle_trans with (y := y); [exact E | apply Hall; exact Hx].
    + assert (Hya : (y <= a)%Q).
      { apply Qlt_le_weak, Qnot_le_lt. intros Hle. apply Qle_bool_iff in Hle. congruence. }
      inversion Hs as [| ? ? Hs' Hall]; subst.
      constructor; [apply IH; exact Hs' |].
      apply List.Forall_forall. intros x Hx. apply In_insert_sorted in Hx.
      destruct Hx as [-> | Hx]; [exact Hya |].
      rewrite List.Forall_forall in Hall. apply Hall; exact Hx.
Qed.

Lemma sort_values_sorted (l : list Q) : Sorted.StronglySorted Qle (sort_values l).
Proof.
  induction l as [| a l IH]; simpl; [constructor | apply insert_sorted_sorted, IH].
Qed.

Lemma sorted_nth_le (l : list Q) (i j : nat) :
  Sorted.StronglySorted Qle l -> (i <= j < length l)%nat ->
  (nth i l 0 <= nth j l 0)%Q.
Proof.
  intros Hs. revert i j. induction Hs as [| a l Hs IH Hall]; intros i j Hij.
  - simpl in Hij. lia.
  - destruct i as [| i], j as [| j]; simpl in *; try lia.
    + apply Qle_refl.
    + rewrite List.Forall_forall in Hall. apply Hall, nth_In. lia.
    + apply IH. lia.
Qed.

Lemma lerp_between (a b t : Q) :
  (a <= b)%Q -> (0 <= t)%Q -> (t <= 1)%Q ->
  (a <= a + (b - a) * t)%Q /\ (a + (b - a) * t <= b)%Q.
Proof.
  intros Hab Ht0 Ht1. split.
  - apply Qle_minus_iff.
    setoid_replace (a + (b - a) * t + - a)%Q with ((b - a) * t)%Q using relation Qeq by ring.
    apply Qmult_le_0_compat; [| exact Ht0].
    apply Qle_minus_iff in Hab. exact Hab.
  - apply Qle_minus_iff.
    setoid_replace (b + - (a + (b - a) * t))%Q with ((b - a) * (1 - t))%Q using relation Qeq by ring.
    apply Qmult_le_0_compat.
    + apply Qle_minus_iff in Hab. exact Hab.
    + apply Qle_minus_iff in Ht1. exact Ht1.
Qed.

(** A percentile of a non-empty sample lies between two of its values. *)
Lemma np_percentile_between (hu : list Q) (p : Q) :
  hu <> [] -> (0 <= p)%Q -> (p <= 100)%Q ->
  exists a b, In a hu /\ In b hu /\
              (a <= np_percentile hu p)%Q /\ (np_percentile hu p <= b)%Q.
Proof.
  intros Hne Hp0 Hp100. unfold np_percentile.
  set (s := sort_values hu).
  assert (Hlen : length s = length hu) by apply length_sort_values.
  assert (Hn : (0 < length s)%nat).
  { rewrite Hlen. destruct hu; [congruence | simpl; lia]. }
  set (n := Z.of_nat (length s)).
  set (h := (inject_Z (n - 1) * p / 100)%Q).
  assert (Hn1 : (0 <= inject_Z (n - 1))%Q).
  { change 0%Q with (inject_Z 0). rewrite <- Zle_Qle. lia. }
  assert (Hh0 : (0 <= h)%Q).
  { unfold h. apply Qle_shift_div_l; [reflexivity |]. rewrite Qmult_0_l.
    apply Qmult_le_0_compat; assumption. }
  assert (Hh1 : (h <= inject_Z (n - 1))%Q).
  { unfold h. apply Qle_shift_div_r; [reflexivity |].
    rewrite (Qmult_comm (inject_Z (n - 1)) p), (Qmult_comm (inject_Z (n - 1)) 100).
    apply Qmult_le_compat_r; assumption. }
  set (lo := Qfloor h).
  assert (Hlo0 : 0 <= lo).
  { unfold lo. rewrite <- (Qfloor_Z 0). apply Qfloor_resp_le. exact Hh0. }
  assert (Hlo1 : lo <= n - 1).
  { unfold lo. rewrite <- (Qfloor_Z (n - 1)). apply Qfloor_resp_le. exact Hh1. }
  set (hi := Z.min (lo + 1) (n - 1)).
  assert (Hhi : lo <= hi <= n - 1) by (unfold hi; lia).
  assert (Ht0 : (0 <= h - inject_Z lo)%Q).
  { exact (proj1 (Qle_minus_iff _ _) (Qfloor_le h)). }
  assert (Ht1 : (h - inject_Z lo <= 1)%Q).
  { pose proof (Qlt_floor h) as Hlt. fold lo in Hlt. rewrite inject_Z_plus in Hlt.
    apply Qlt_le_weak. apply Qlt_minus_iff in Hlt. apply Qlt_minus_iff.
    setoid_replace (1 + - (h - inject_Z lo))%Q
      with (inject_Z lo + inject_Z 1 + - h)%Q using relation Qeq by ring. exact Hlt. }
  assert (Hab : (nth (Z.to_nat lo) s 0 <= nth (Z.to_nat hi) s 0)%Q).
  { apply sorted_nth_le; [apply sort_values_sorted | lia]. }
  destruct (lerp_between _ _ _ Hab Ht0 Ht1) as [Hl Hu].
  exists (nth (Z.to_nat lo) s 0%Q), (nth (Z.to_nat hi) s 0%Q).
  assert (Hlo_n : (Z.to_nat lo < length s)%nat) by lia.
  assert (Hhi_n : (Z.to_nat hi < length s)%nat) by lia.
  split; [apply In_sort_values, nth_In; exact Hlo_n |].
  split; [apply In_sort_values, nth_In; exact Hhi_n |].
  split; assumption.
Qed.

Lemma In_values_in_mask (ct : image Q) (mask_u8 : image Z) (a : Q) :
  In a (values_in_mask ct mask_u8) <->
  exists v, inside (GetSize ct) v = true /\ 0 < pix mask_u8 v /\ a = pix ct v.
Proof.
  unfold values_in_mask. rewrite in_map_iff. split.
  - intros [v [<- Hv]]. apply filter_In in Hv. destruct Hv as [Hin Hm].
    apply In_indices in Hin. apply Z.ltb_lt in Hm. exists v. auto.
  - intros [v (Hin & Hm & ->)]. exists v. split; [reflexivity |].
    apply filter_In. split; [apply In_indices; exact Hin | apply Z.ltb_lt; exact Hm].
Qed.

(** [stats_percentiles_in_mask] returns one value per requested
    percentile; with no voxel in the mask each is the default 300.0,
    otherwise each lies between the CT values of two voxels of the mask. *)
Theorem percentiles_in_mask_range (ct : image Q) (mask_u8 : image Z) (pcts : list Q) :
  (forall p, In p pcts -> (0 <= p)%Q /\ (p <= 100)%Q) ->
  length (stats_percentiles_in_mask ct mask_u8 pcts) = length pcts /\
  (values_in_mask ct mask_u8 = [] ->
     forall r, In r (stats_percentiles_in_mask ct mask_u8 pcts) -> r = 300%Q) /\
  (values_in_mask ct mask_u8 <> [] ->
     forall r, In r (stats_percentiles_in_mask ct mask_u8 pcts) ->
     exists u v,
       (inside (GetSize ct) u = true /\ 0 < pix mask_u8 u) /\
       (inside (GetSize ct) v = true /\ 0 < pix mask_u8 v) /\
       (pix ct u <= r)%Q /\ (r <= pix ct v)%Q).
Proof.
  intros Hp. unfold stats_percentiles_in_mask.
  split; [destruct (values_in_mask ct mask_u8); apply length_map |].
  split.
  - intros ->. intros r Hr. apply in_map_iff in Hr. destruct Hr as [p [<- _]]. reflexivity.
  - intros Hne r Hr.
    assert (Hr' : In r (map (np_percentile (values_in_mask ct mask_u8)) pcts))
      by (destruct (values_in_mask ct mask_u8); [congruence | exact Hr]).
    apply in_map_iff in Hr'. destruct Hr' as [p [<- Hpin]].
    destruct (Hp p Hpin) as [Hp0 Hp1].
    destruct (np_percentile_between _ p Hne Hp0 Hp1) as [a [b (Ha & Hb & Hl & Hu)]].
    apply In_values_in_mask in Ha, Hb.
    destruct Ha as [u (Hu1 & Hu2 & ->)], Hb as [v (Hv1 & Hv2 & ->)].
    exists u, v. auto.
Qed.

Lemma percentiles_in_mask_range_witness :
  length (stats_percentiles_in_mask ct_column rib_column [PCTL_ROBUST; 0%Q]) = 2%nat.
Proof.
  refine (proj1 (percentiles_in_mask_range ct_column rib_column [PCTL_ROBUST; 0%Q] _)).
  intros p [<- | [<- | []]]; split; discriminate.
Defined.

(** ** Seeded growth *)






Lemma neighbours6_sym (v w : index) : In w (neighbours6 v) -> In v (neighbours6 w).
Proof.
  destruct v as [[x y] z]. unfold neighbours6, iadd, ix, iy, iz; simpl.
  intros [<- | [<- | [<- | [<- | [<- | [<- | []]]]]]]; simpl;
    [right; left | left | do 3 right; left | do 2 right; left
     | do 5 right; left | do 4 right; left];
    f_equal; [f_equal | | f_equal | | f_equal | | f_equal | | f_equal | | f_equal |]; lia.
Qed.

Lemma existsb_pointwise {A} (f g : A -> bool) (l : list A) :
  (forall x, f x = g x) -> existsb f l = existsb g l.
Proof.
  intros Hfg. induction l as [| a l IH]; simpl; [reflexivity |].
  rewrite Hfg, IH. reflexivity.
Qed.

Section Flood.
Variables (dom : list index) (ok : index -> bool).
Hypothesis dom_NoDup : List.NoDup dom.

Let step (cur : list index) : list index :=
  List.filter (fun v =>
    ok v && (mem v cur || existsb (fun w => mem w cur) (neighbours6 v))) dom.

Let good (cur : list index) : Prop := forall v, In v cur -> In v dom /\ ok v = true.

Let closed (cur : list index) : Prop :=
  forall v w, In v cur -> In w (neighbours6 v) -> In w dom -> ok w = true -> In w cur.

Lemma step_good (cur : list index) : good (step cur).
Proof using Type.
  intros v Hv. apply filter_In in Hv. destruct Hv as [Hd Hv].
  apply andb_true_iff in Hv. tauto.
Qed.

Lemma step_NoDup (cur : list index) : List.NoDup (step cur).
Proof using dom_NoDup. apply List.NoDup_filter. exact dom_NoDup. Qed.

Lemma step_grows (cur : list index) : good cur -> incl cur (step cur).
Proof using Type.
  intros Hg v Hv. destruct (Hg v Hv) as [Hd Hok].
  apply filter_In. split; [exact Hd |].
  rewrite Hok. apply mem_In in Hv. rewrite Hv. reflexivity.
Qed.

Lemma step_ext (cur cur' : list index) :
  (forall v, In v cur <-> In v cur') -> step cur = step cur'.
Proof using Type.
  intros He. unfold step. apply filter_ext. intros v.
  assert (Hm : forall u, mem u cur = mem u cur').
  { intros u. destruct (mem u cur) eqn:E1, (mem u cur') eqn:E2; try reflexivity.
    - apply mem_In, He, mem_In in E1. congruence.
    - apply mem_In, He, mem_In in E2. congruence. }
  rewrite Hm. f_equal. f_equal. apply existsb_pointwise. intros w. apply Hm.
Qed.

Lemma stable_closed (cur : list index) : incl (step cur) cur -> closed cur.
Proof using Type.
  intros Hs v w Hv Hw Hd Hok. apply Hs. apply filter_In. split; [exact Hd |].
  rewrite Hok. cbn [andb]. apply orb_true_iff. right.
  apply existsb_exists. exists v. split; [apply neighbours6_sym; exact Hw |].
  apply mem_In. exact Hv.
Qed.

Lemma stable_step (cur : list index) :
  good cur -> incl (step cur) cur -> incl (step (step cur)) (step cur).
Proof using Type.
  intros Hg Hs. rewrite (step_ext (step cur) cur); [apply incl_refl |].
  intros v. split; [apply Hs | apply step_grows; exact Hg].
Qed.

Lemma flood_closed_aux (fuel : nat) (cur : list index) :
  good cur -> List.NoDup cur ->
  incl (step cur) cur \/ (length dom <= fuel + length cur)%nat ->
  closed (flood fuel dom ok cur).
Proof using dom_NoDup.
  revert cur. induction fuel as [| k IH]; intros cur Hg Hnd Hcase.
  - simpl. destruct Hcase as [Hs | Hlen]; [apply stable_closed; exact Hs |].
    intros v w _ _ Hd _.
    assert (Hincl : incl dom cur).
    { apply List.NoDup_length_incl; [exact Hnd | simpl in Hlen; lia |].
      intros u Hu. apply (Hg u Hu). }
    apply Hincl. exact Hd.
  - change (flood (S k) dom ok cur) with (flood k dom ok (step cur)).
    apply IH; [apply step_good | apply step_NoDup |].
    destruct Hcase as [Hs | Hlen]; [left; apply stable_step; assumption |].
    pose proof (List.NoDup_incl_length Hnd (step_grows cur Hg)) as Hle.
    destruct (Nat.eq_dec (length (step cur)) (length cur)) as [E | N].
    + left. apply stable_step; [exact Hg |].
      apply List.NoDup_length_incl; [exact Hnd | lia | apply step_grows; exact Hg].
    + right. lia.
Qed.
End Flood.

(** The grown region is closed under face adjacency: a voxel of the
    buffer next to a grown voxel, in the corridor and in the intensity
    window, is grown too.  With the two properties above, the region is
    what can be reached from the seed through such voxels. *)
Theorem region_grow_closed_under_adjacency (ct : image Q) (seeds_phys : list point)
  (lo hi : Q) (corridor_u8 : image Z) (v w : index) :
  (-2000 < lo)%Q ->
  pix (region_grow_local ct seeds_phys lo hi corridor_u8) v <> 0 ->
  In w (neighbours6 v) ->
  inside (GetSize ct) w = true -> pix corridor_u8 w <> 0 ->
  (lo <= pix ct w)%Q -> (pix ct w <= hi)%Q ->
  pix (region_grow_local ct seeds_phys lo hi corridor_u8) w = 1.
Proof.
  intros Hlo Hv Hw Hin Hc H1 H2. unfold region_grow_local in *.
  destruct seeds_phys as [| s seeds]; [exfalso; apply Hv; reflexivity |].
  apply to_u8_nonzero in Hv. unfold to_u8. cbn [pix].
  unfold ConnectedThreshold in *. cbn [pix] in *.
  set (dom := indices (GetSize (Mask ct corridor_u8 (-2000)))) in *.
  set (ok := fun u => Qle_bool lo (pix (Mask ct corridor_u8 (-2000)) u)
                      && Qle_bool (pix (Mask ct corridor_u8 (-2000)) u) hi) in *.
  set (start := List.filter _ dom) in *.
  assert (Hclosed := flood_closed_aux dom ok (NoDup_indices _) (length dom) start).
  assert (Hv' : In v (flood (length dom) dom ok start)).
  { apply mem_In. destruct (mem v (flood (length dom) dom ok start)); [reflexivity | lia]. }
  assert (Hw' : In w (flood (length dom) dom ok start)).
  { apply (Hclosed) with (v := v); try assumption.
    - intros u Hu. subst start. apply filter_In in Hu. destruct Hu as [Hd Hu].
      apply andb_true_iff in Hu. tauto.
    - subst start. apply List.NoDup_filter, NoDup_indices.
    - right. lia.
    - subst dom. apply In_indices. exact Hin.
    - subst ok. cbv beta. unfold Mask; cbn [pix]. apply Z.eqb_neq in Hc. rewrite Hc.
      apply andb_true_iff. split; apply Qle_bool_iff; assumption. }
  apply mem_In in Hw'. rewrite Hw'. reflexivity.
Qed.

Lemma region_grow_closed_under_adjacency_witness :
  pix (region_grow_local ct_column [(0, 21, 0)%Q] 300 UPPER_HU rib_column) (0, 2, 0) = 1.
Proof.
  refine (region_grow_closed_under_adjacency ct_column [(0, 21, 0)%Q] 300 UPPER_HU
            rib_column (0, 3, 0) (0, 2, 0) _ _ _ _ _ _ _).
  - reflexivity.
  - vm_compute. discriminate.
  - right. right. left. reflexivity.
  - reflexivity.
  - discriminate.
  - discriminate.
  - discriminate.
Defined.

(** ** Corridor *)




(** ** What the growth adds *)

Lemma keep_growth_subset `{SimpleITK} (grow rib out : image Z) :
  (forall cc, ConnectedComponent grow = Ok cc ->
              forall v, pix cc v <> 0 -> pix grow v <> 0) ->
  keep_growth_touching_rib grow rib = Ok out ->
  forall v, pix out v <> 0 -> pix grow v <> 0.
Proof.
  intros Hsup. unfold keep_growth_touching_rib.
  destruct (negb (any grow)); cbn [bind ret result_monad].
  - intros E. injection E as <-. auto.
  - destruct (ConnectedComponent grow) as [cc | e]; cbn [bind ret result_monad];
      [| discriminate].
    intros E. injection E as <-. intros v Hv.
    apply (keep_loop_spec cc
             (fun L => any (And (to_u8 (BinaryThreshold cc L L))
                                (BinaryDilate rib (1, 1, 1))))) in Hv.
    destruct Hv as [Hv | [L (HL & Hc & _)]]; [exfalso; apply Hv; reflexivity |].
    apply GetLabels_spec in HL. destruct HL as [HL _].
    apply (Hsup cc eq_refl). rewrite Hc. exact HL.
Qed.

(** Provided labelling marks no voxel outside the mask it labels, every
    voxel the loop adds to the union of growths lies in the buffer of the
    CT, has its CT value between the lower bound and 1200 HU, and belongs
    to the corridor of one of the candidates. *)
Theorem grown_union_within_window `{SimpleITK} (ct : image Q) (rib spine : image Z)
  (lower_hu : Q) (candidates : list (point * pyfloat)) (grow_union : image Z) :
  (forall img cc, ConnectedComponent img = Ok cc ->
                  forall v, pix cc v <> 0 -> pix img v <> 0) ->
  (-2000 < lower_hu)%Q ->
  grow_each ct rib spine lower_hu candidates (zeros_like ct) = Ok grow_union ->
  forall v, pix grow_union v <> 0 ->
    inside (GetSize ct) v = true /\
    (lower_hu <= pix ct v)%Q /\ (pix ct v <= UPPER_HU)%Q /\
    exists ep cor,
      In ep (map fst candidates) /\
      corridor_for_tip rib spine ep R_RIB_MM_R R_TIP_MM_R = Ok cor /\
      pix cor v <> 0.
Proof.
  intros Hsup Hlo.
  assert (G : forall cands acc g,
    grow_each ct rib spine lower_hu cands acc = Ok g ->
    forall v, pix g v <> 0 ->
      pix acc v <> 0 \/
      (inside (GetSize ct) v = true /\
       (lower_hu <= pix ct v)%Q /\ (pix ct v <= UPPER_HU)%Q /\
       exists ep cor,
         In ep (map fst cands) /\
         corridor_for_tip rib spine ep R_RIB_MM_R R_TIP_MM_R = Ok cor /\
         pix cor v <> 0)).
  { induction cands as [| [ep frac] cs IH]; intros acc g Hg v Hv.
    - injection Hg as <-. left. exact Hv.
    - cbn [grow_each] in Hg.
      destruct (grow_endpoint ct rib spine lower_hu ep) as [growth | e] eqn:Eg;
        cbn [bind ret result_monad] in Hg; [| discriminate Hg].
      destruct (IH _ _ Hg v Hv) as [Hacc | (Hin & H1 & H2 & ep' & cor & Hep & Hc & Hcv)].
      + unfold Or in Hacc; cbn [pix] in Hacc. apply lor_nonzero in Hacc.
        destruct Hacc as [Hacc | Hgr]; [left; exact Hacc | right].
        unfold grow_endpoint in Eg.
        destruct (corridor_for_tip rib spine ep R_RIB_MM_R R_TIP_MM_R) as [cor | e] eqn:Ec;
          cbn [bind ret result_monad] in Eg; [| discriminate Eg].
        apply (keep_growth_subset _ _ _ (Hsup _) Eg) in Hgr.
        apply region_grow_local_sound in Hgr; [| exact Hlo].
        destruct Hgr as (Hin & Hcv & H1 & H2).
        repeat (split; [assumption |]).
        exists ep, cor. split; [left; reflexivity | auto].
      + right. repeat (split; [assumption |]).
        exists ep', cor. split; [right; exact Hep | auto]. }
  intros Hg v Hv. destruct (G _ _ _ Hg v Hv) as [Hz | Hres]; [| exact Hres].
  exfalso. apply Hz. reflexivity.
Qed.

Lemma label_in_found (v : index) (comps : list (list index)) (L : Z) :
  label_in v comps L <> 0 -> exists c, In c comps /\ In v c.
Proof.
  revert L. induction comps as [| c comps IH]; intros L; simpl; [congruence |].
  destruct (mem v c) eqn:E.
  - intros _. exists c. split; [left; reflexivity | apply mem_In; exact E].
  - intros H. destruct (IH _ H) as [c' [Hc' Hv]]. exists c'. auto.
Qed.

Lemma scan_components_sound (todo dom : list index) (fg : index -> bool)
  (found : list (list index)) :
  incl todo dom ->
  (forall c v, In c found -> In v c -> fg v = true) ->
  forall c v, In c (scan_components todo dom fg found) -> In v c -> fg v = true.
Proof.
  revert found. induction todo as [| p rest IH]; intros found Hincl Hfound; simpl;
    [exact Hfound |].
  assert (Hrest : incl rest dom) by (intros u Hu; apply Hincl; right; exact Hu).
  destruct (fg p && negb (existsb (mem p) found)) eqn:E.
  - apply IH; [exact Hrest |]. intros c v Hc Hv.
    apply in_app_or in Hc. destruct Hc as [Hc | [<- | []]]; [exact (Hfound c v Hc Hv) |].
    apply andb_true_iff in E. destruct E as [Hp _].
    apply flood_sound in Hv; [exact (proj2 Hv) |].
    intros u [<- | []]. split; [apply Hincl; left; reflexivity | exact Hp].
  - apply IH; assumption.
Qed.

(** Labelling by flood fill marks no voxel outside the mask. *)
Lemma flood_label_support (img : image Z) (v : index) :
  pix (flood_label img) v <> 0 -> pix img v <> 0.
Proof.
  unfold flood_label; cbn [pix]. intros H.
  apply label_in_found in H. destruct H as [c [Hc Hv]].
  apply (scan_components_sound _ _ _ [] (incl_refl _)) with (v := v) in Hc;
    [| intros c' v' [] | exact Hv].
  apply negb_true_iff, Z.eqb_neq in Hc. exact Hc.
Qed.

Lemma grown_union_within_window_witness :
  (300 <= pix ct_column (0, 1, 0)%Z)%Q /\ (pix ct_column (0, 1, 0)%Z <= UPPER_HU)%Q.
Proof.
  pose (cands := [((0, 21, 0)%Q, Finite 0)] : list (point * pyfloat)).
  pose (g := match @grow_each small_volume_filters ct_column rib_column
                     (zeros_like ct_column) 300 cands (zeros_like ct_column) with
             | Ok g => g
             | Raise _ => zeros_like ct_column
             end).
  assert (Hg : @grow_each small_volume_filters ct_column rib_column
                 (zeros_like ct_column) 300 cands (zeros_like ct_column) = Ok g)
    by reflexivity.
  assert (Hv : pix g (0, 1, 0) <> 0) by (vm_compute; discriminate).
  pose proof (@grown_union_within_window small_volume_filters ct_column rib_column
                (zeros_like ct_column) 300 cands g
                (fun img cc E v => match E in (_ = r) return
                     (match r with Ok c => pix c v <> 0 -> pix img v <> 0 | Raise _ => True end)
                   with eq_refl => flood_label_support img v end)
                eq_refl Hg (0, 1, 0) Hv) as W.
  exact (conj (proj1 (proj2 W)) (proj1 (proj2 (proj2 W)))).
Defined.

(** ** The loop over the rib files *)

Lemma repair_first_rib_prints `{SimpleITK} (ct : image Q) (rib_path out_path : string)
  (w : world) :
  exists l, stdout (snd (repair_first_rib ct rib_path out_path w)) = stdout w ++ l.
Proof.
  destruct (files w !! rib_path) as [rib_raw |] eqn:Hread.
  - destruct (build_spine_mask ct) as [spine | e] eqn:Hspine.
    + destruct (skeleton (rib_in_ct ct rib_raw)) as [skel | e] eqn:Hskel.
      * pose proof (repair_first_rib_run ct rib_path out_path w rib_raw spine skel
                      Hread Hspine Hskel) as Hrun.
        cbv zeta in Hrun. rewrite Hrun. clear Hrun.
        destruct (growth_candidates_of ct _ _ _) as [| c cs]; [eexists; reflexivity |].
        destruct (grow_each ct _ _ _ (c :: cs) _) as [g | e]; eexists; reflexivity.
      * exists []. unfold repair_first_rib, read_img, lift. cbn [bind io_monad].
        rewrite Hread, Hspine. unfold rib_in_ct in Hskel.
        destruct (side_selection (basename rib_path)) as [[cutoff tag] floor].
        rewrite Hskel. cbn [snd]. rewrite app_nil_r. reflexivity.
    + exists []. unfold repair_first_rib, read_img, lift. cbn [bind io_monad].
      rewrite Hread, Hspine. cbn [snd]. rewrite app_nil_r. reflexivity.
  - exists []. unfold repair_first_rib, read_img. cbn [bind io_monad].
    rewrite Hread. cbn [snd]. rewrite app_nil_r. reflexivity.
Qed.

(** Each rib file handled by the driver ends in one of two ways: a file at
    its output path, or the files left as they were and an error line
    printed last.  No rib is dropped without a trace. *)
Theorem try_repair_output_or_error `{SimpleITK} (ct : image Q)
  (out_dir subj rib_path : string) (w : world) :
  (exists img,
     files (try_repair ct out_dir subj rib_path w)
       = <[snd (out_path_of out_dir subj rib_path) := img]> (files w)) \/
  (files (try_repair ct out_dir subj rib_path w) = files w /\
   exists l e,
     stdout (try_repair ct out_dir subj rib_path w)
       = stdout w ++ l ++ [ErrorLine subj (fst (out_path_of out_dir subj rib_path)) e]).
Proof.
  unfold try_repair. destruct (out_path_of out_dir subj rib_path) as [base out_path].
  cbn [fst snd].
  destruct (repair_first_rib_prints ct rib_path out_path w) as [l Hl].
  destruct (repair_first_rib_outcome ct rib_path out_path w)
    as [[e [Hr Hf]] | [img [Hr Hf]]];
    destruct (repair_first_rib ct rib_path out_path w) as [r w']; cbn [fst snd] in *;
    subst r.
  - right. cbn [print snd files stdout]. split; [exact Hf |].
    exists l, e. rewrite Hl, <- app_assoc. reflexivity.
  - left. exists img. exact Hf.
Qed.

Lemma try_repair_files `{SimpleITK} (ct : image Q) (out_dir subj rib_path : string)
  (w : world) :
  files (try_repair ct out_dir subj rib_path w) = files w \/
  exists img, files (try_repair ct out_dir subj rib_path w)
                = <[snd (out_path_of out_dir subj rib_path) := img]> (files w).
Proof.
  unfold try_repair. destruct (out_path_of out_dir subj rib_path) as [base out_path].
  cbn [snd].
  destruct (repair_first_rib_outcome ct rib_path out_path w)
    as [[e [Hr Hf]] | [img [Hr Hf]]];
    destruct (repair_first_rib ct rib_path out_path w) as [r w']; cbn [fst snd] in *;
    subst r.
  - left. exact Hf.
  - right. exists img. exact Hf.
Qed.

Lemma In_insert_path (x p : string) (l : list string) :
  In x (insert_path p l) <-> x = p \/ In x l.
Proof.
  induction l as [| q l IH]; simpl; [intuition congruence |].
  destruct (String.leb p q); simpl; [intuition congruence |].
  rewrite IH. intuition congruence.
Qed.

Lemma In_sorted (x : string) (l : list string) : In x (sorted l) <-> In x l.
Proof.
  induction l as [| a l IH]; simpl; [tauto |].
  rewrite In_insert_path, IH. intuition congruence.
Qed.

(** The loop writes only at the output paths of the rib files it is given,
    and it never removes a file. *)
Theorem repair_all_touches_only_outputs `{SimpleITK} (ct : image Q)
  (out_dir subj : string) (rib_files : list string) (w : world) (p : string) :
  ((forall rib_path, In rib_path rib_files ->
      p <> snd (out_path_of out_dir subj rib_path)) ->
   files (repair_all ct out_dir subj rib_files w) !! p = files w !! p) /\
  (is_Some (files w !! p) ->
   is_Some (files (repair_all ct out_dir subj rib_files w) !! p)).
Proof.
  unfold repair_all.
  assert (G : forall l w0,
    ((forall rib_path, In rib_path l -> p <> snd (out_path_of out_dir subj rib_path)) ->
     files (fold_left (fun w rib_path => try_repair ct out_dir subj rib_path w) l w0) !! p
       = files w0 !! p) /\
    (is_Some (files w0 !! p) ->
     is_Some (files (fold_left (fun w rib_path => try_repair ct out_dir subj rib_path w)
                       l w0) !! p))).
  { induction l as [| r l IH]; intros w0; simpl; [split; auto |].
    destruct (IH (try_repair ct out_dir subj r w0)) as [IH1 IH2]. split.
    - intros Hp. rewrite IH1 by (intros q Hq; apply Hp; right; exact Hq).
      destruct (try_repair_files ct out_dir subj r w0) as [-> | [img ->]]; [reflexivity |].
      apply lookup_insert_ne. intros E. apply (Hp r (or_introl eq_refl)). symmetry. exact E.
    - intros Hs. apply IH2.
      destruct (try_repair_files ct out_dir subj r w0) as [-> | [img ->]]; [exact Hs |].
      destruct (decide (snd (out_path_of out_dir subj r) = p)) as [<- | Hne].
      + rewrite lookup_insert_eq. eauto.
      + rewrite lookup_insert_ne by exact Hne. exact Hs. }
  destruct (G (sorted rib_files) w) as [G1 G2]. split; [| exact G2].
  intros Hp. apply G1. intros r Hr. apply Hp. apply In_sorted. exact Hr.
Qed.

Lemma repair_all_touches_only_outputs_witness :
  let w := World (<["ribs/rib_left_1.nii.gz" := rib_column]> ∅) [] in
  files (@repair_all small_volume_filters ct_column "out" "CF01"
           ["ribs/rib_left_1.nii.gz"] w) !! "ribs/rib_left_1.nii.gz"
  = files w !! "ribs/rib_left_1.nii.gz" /\
  is_Some (files (@repair_all small_volume_filters ct_column "out" "CF01"
                    ["ribs/rib_left_1.nii.gz"] w) !! "ribs/rib_left_1.nii.gz").
Proof.
  intros w.
  pose proof (@repair_all_touches_only_outputs small_volume_filters ct_column
                "out" "CF01" ["ribs/rib_left_1.nii.gz"] w "ribs/rib_left_1.nii.gz")
    as [T1 T2].
  split.
  - apply T1. intros rib_path [<- | []]. vm_compute. discriminate.
  - apply T2. exists rib_column. apply lookup_insert_eq.
Defined.

Lemma leb_trans (a b c : string) :
  String.leb a b = true -> String.leb b c = true -> String.leb a c = true.
Proof.
  intros Hab Hbc. apply Is_true_true.
  apply Is_true_true in Hab, Hbc.
  change (String.le a c). transitivity b; assumption.
Qed.

Lemma insert_path_sorted (p : string) (l : list string) :
  Sorted.StronglySorted (fun a b => String.leb a b = true) l ->
  Sorted.StronglySorted (fun a b => String.leb a b = true) (insert_path p l).
Proof.
  induction l as [| q l IH]; intros Hs; simpl.
  - constructor; constructor.
  - destruct (String.leb p q) eqn:E.
    + constructor; [exact Hs |]. constructor; [exact E |].
      inversion Hs as [| ? ? _ Hall]; subst.
      apply List.Forall_forall. intros x Hx. rewrite List.Forall_forall in Hall.
      apply leb_trans with (b := q); [exact E | apply Hall; exact Hx].
    + assert (Hqp : String.leb q p = true)
        by (destruct (String.leb_total p q) as [H | H]; [congruence | exact H]).
      inversion Hs as [| ? ? Hs' Hall]; subst.
      constructor; [apply IH; exact Hs' |].
      apply List.Forall_forall. intros x Hx. apply In_insert_path in Hx.
      destruct Hx as [-> | Hx]; [exact Hqp |].
      rewrite List.Forall_forall in Hall. apply Hall; exact Hx.
Qed.

Lemma sorted_is_sorted (l : list string) :
  Sorted.StronglySorted (fun a b => String.leb a b = true) (sorted l).
Proof.
  induction l as [| a l IH]; simpl; [constructor | apply insert_path_sorted, IH].
Qed.

Lemma insert_path_perm (p : string) (l : list string) :
  Permutation (insert_path p l) (p :: l).
Proof.
  induction l as [| q l IH]; simpl; [apply Permutation_refl |].
  destruct (String.leb p q); [apply Permutation_refl |].
  apply Permutation_trans with (l' := q :: p :: l);
    [apply perm_skip; exact IH | apply perm_swap].
Qed.

Lemma sorted_perm (l : list string) : Permutation (sorted l) l.
Proof.
  induction l as [| a l IH]; simpl; [apply perm_nil |].
  apply Permutation_trans with (l' := a :: sorted l);
    [apply insert_path_perm | apply perm_skip; exact IH].
Qed.

Lemma sorted_unique (l l' : list string) :
  Sorted.StronglySorted (fun a b => String.leb a b = true) l ->
  Sorted.StronglySorted (fun a b => String.leb a b = true) l' ->
  Permutation l l' -> l = l'.
Proof.
  intros Hs. revert l'. induction Hs as [| a t Hs IH Ha]; intros l' Hs' Hp.
  - apply Permutation_nil in Hp. symmetry. exact Hp.
  - destruct Hs' as [| b t' Hs' Hb].
    + apply Permutation_sym, Permutation_nil in Hp. discriminate Hp.
    + rewrite List.Forall_forall in Ha, Hb.
      assert (Hab : a = b).
      { assert (H1 : In a (b :: t')) by (apply (Permutation_in _ Hp); left; reflexivity).
        assert (H2 : In b (a :: t))
          by (apply (Permutation_in _ (Permutation_sym Hp)); left; reflexivity).
        destruct H1 as [H1 | H1]; [symmetry; exact H1 |].
        destruct H2 as [H2 | H2]; [exact H2 |].
        apply String.leb_antisym; [apply Ha; exact H2 | apply Hb; exact H1]. }
      subst b. f_equal. apply IH; [exact Hs' |].
      apply Permutation_cons_inv with (a := a). exact Hp.
Qed.

(** The loop handles the rib files in sorted order, so its result does not
    depend on the order in which the directory walk listed them. *)
Theorem repair_all_order_independent `{SimpleITK} (ct : image Q)
  (out_dir subj : string) (rib_files rib_files' : list string) (w : world) :
  Permutation rib_files rib_files' ->
  repair_all ct out_dir subj rib_files w = repair_all ct out_dir subj rib_files' w.
Proof.
  intros Hp. unfold repair_all.
  rewrite (sorted_unique (sorted rib_files) (sorted rib_files'));
    [reflexivity | apply sorted_is_sorted | apply sorted_is_sorted |].
  apply Permutation_trans with (l' := rib_files); [apply sorted_perm |].
  apply Permutation_trans with (l' := rib_files'); [exact Hp |].
  apply Permutation_sym, sorted_perm.
Qed.

Lemma repair_all_order_independent_witness :
  let w := World (<["a/rib_left_1.nii.gz" := rib_column]>
                    (<["a/rib_right_1.nii.gz" := rib_anterior]> ∅)) [] in
  @repair_all small_volume_filters ct_column "out" "CF01"
    ["a/rib_right_1.nii.gz"; "a/rib_left_1.nii.gz"] w
  = @repair_all small_volume_filters ct_column "out" "CF01"
      ["a/rib_left_1.nii.gz"; "a/rib_right_1.nii.gz"] w.
Proof.
  intros w. apply repair_all_order_independent. apply perm_swap.
Defined.

(** ** Output paths *)

Lemma length_append (a b : string) :
  String.length (a +:+ b) = (String.length a + String.length b)%nat.
Proof. induction a as [| c a IH]; simpl; [reflexivity | rewrite IH; reflexivity]. Qed.

Lemma basename_aux_no_slash (s acc : string) :
  has_char "/" s = false -> basename_aux s acc = acc.
Proof.
  revert acc. induction s as [| c s IH]; intros acc Hs; simpl in *; [reflexivity |].
  apply orb_false_iff in Hs. destruct Hs as [Hc Hs]. rewrite Hc. apply IH. exact Hs.
Qed.

Lemma basename_of_joined (d name : string) :
  has_char "/" name = false -> basename (d +:+ "/" +:+ name) = name.
Proof.
  intros Hn. unfold basename.
  assert (G : forall acc, basename_aux (d +:+ "/" +:+ name) acc = name).
  { induction d as [| c d IH]; intros acc; simpl.
    - apply basename_aux_no_slash. exact Hn.
    - destruct (Ascii.eqb c "/"); apply IH. }
  apply G.
Qed.

(** Scanning a dot-free prefix, [replace] of a pattern that starts with a
    dot keeps every character. *)
Lemma remove_all_dotless_prefix (old' s tail : string) (k : nat) :
  has_char "." s = false ->
  remove_all (String.length s + k) (String "." old') (s +:+ tail)
  = s +:+ remove_all k (String "." old') tail.
Proof.
  induction s as [| c s IH]; intros Hs; [reflexivity |].
  simpl in Hs. apply orb_false_iff in Hs. destruct Hs as [Hc Hs].
  change (String.length (String c s) + k)%nat with (S (String.length s + k)).
  change (String c s +:+ tail) with (String c (s +:+ tail)).
  cbn [remove_all String.prefix].
  destruct (ascii_dec "." c) as [E | _].
  - subst c. discriminate Hc.
  - rewrite (IH Hs). reflexivity.
Qed.

Lemma base_of_dotless_stem (stem : string) :
  has_char "." stem = false ->
  replace_with_empty ".nii" (replace_with_empty ".nii.gz" (stem +:+ ".nii")) = stem /\
  replace_with_empty ".nii" (replace_with_empty ".nii.gz" (stem +:+ ".nii.gz")) = stem.
Proof.
  intros Hs. unfold replace_with_empty.
  assert (E0 : stem +:+ "" = stem).
  { clear. induction stem as [| a s IH]; [reflexivity |].
    change (String a (s +:+ "") = String a s). rewrite IH. reflexivity. }
  split.
  - rewrite length_append.
    replace (S (String.length stem + String.length ".nii"))
      with (String.length stem + 5)%nat by (simpl; lia).
    rewrite (remove_all_dotless_prefix "nii.gz" stem ".nii" 5 Hs).
    change (remove_all 5 ".nii.gz" ".nii") with ".nii".
    rewrite length_append.
    replace (S (String.length stem + String.length ".nii"))
      with (String.length stem + 5)%nat by (simpl; lia).
    rewrite (remove_all_dotless_prefix "nii" stem ".nii" 5 Hs).
    change (remove_all 5 ".nii" ".nii") with "". exact E0.
  - rewrite length_append.
    replace (S (String.length stem + String.length ".nii.gz"))
      with (String.length stem + 8)%nat by (simpl; lia).
    rewrite (remove_all_dotless_prefix "nii.gz" stem ".nii.gz" 8 Hs).
    change (remove_all 8 ".nii.gz" ".nii.gz") with "". rewrite E0.
    replace (S (String.length stem)) with (String.length stem + 1)%nat by lia.
    rewrite <- E0 at 2.
    rewrite (remove_all_dotless_prefix "nii" stem "" 1 Hs).
    change (remove_all 1 ".nii" "") with "". exact E0.
Qed.

(** Two rib files in one folder that differ only in the extension, [.nii]
    against [.nii.gz], are given the same base name and the same output
    path: the one repaired second overwrites the output of the first. *)
Theorem extension_variants_share_output (out_dir subj d stem : string) :
  has_char "." stem = false -> has_char "/" stem = false ->
  fst (out_path_of out_dir subj (d +:+ "/" +:+ stem +:+ ".nii")) = stem /\
  out_path_of out_dir subj (d +:+ "/" +:+ stem +:+ ".nii")
  = out_path_of out_dir subj (d +:+ "/" +:+ stem +:+ ".nii.gz").
Proof.
  intros Hdot Hslash.
  assert (Hs : forall ext, has_char "/" ext = false ->
                           has_char "/" (stem +:+ ext) = false).
  { intros ext He. clear Hdot. induction stem as [| c s IH]; simpl in *; [exact He |].
    apply orb_false_iff in Hslash. destruct Hslash as [Hc Hs].
    rewrite Hc. apply IH. exact Hs. }
  destruct (base_of_dotless_stem stem Hdot) as [B1 B2].
  unfold out_path_of.
  rewrite (basename_of_joined d (stem +:+ ".nii") (Hs ".nii" eq_refl)).
  rewrite (basename_of_joined d (stem +:+ ".nii.gz") (Hs ".nii.gz" eq_refl)).
  rewrite B1, B2. split; reflexivity.
Qed.

Lemma extension_variants_share_output_witness :
  is_first_rib_file "rib_left_1.nii" = true /\
  is_first_rib_file "rib_left_1.nii.gz" = true /\
  out_path_of "out" "CF01" ("ribs" +:+ "/" +:+ "rib_left_1" +:+ ".nii")
  = out_path_of "out" "CF01" ("ribs" +:+ "/" +:+ "rib_left_1" +:+ ".nii.gz").
Proof.
  split; [reflexivity |]. split; [reflexivity |].
  exact (proj2 (extension_variants_share_output "out" "CF01" "ribs" "rib_left_1"
                  eq_refl eq_refl)).
Defined.

(** ** File matching *)








(** ** The rib loop of the pipeline *)

Lemma repair_first_rib_written `{SimpleITK} (ct : image Q) (rib_path out_path : string)
  (w : world) (rib_raw : image Z) :
  files w !! rib_path = Some rib_raw ->
  fst (repair_first_rib ct rib_path out_path w) = Ok tt ->
  exists out,
    files (snd (repair_first_rib ct rib_path out_path w)) = <[out_path := out]> (files w) /\
    geom out = geom rib_raw.
Proof.
  intros Hread Hok.
  destruct (repair_first_rib_ok_inv ct rib_path out_path w rib_raw Hread Hok)
    as [spine [skel [Hspine Hskel]]].
  pose proof (repair_first_rib_run ct rib_path out_path w rib_raw spine skel
                Hread Hspine Hskel) as Hrun.
  cbv zeta in Hrun. rewrite Hrun in *. clear Hrun.
  destruct (growth_candidates_of ct _ _ _) as [| c cs].
  - exists rib_raw. split; reflexivity.
  - destruct (grow_each ct _ _ _ (c :: cs) _) as [g | e]; [| discriminate Hok].
    eexists. split; reflexivity.
Qed.

Lemma call_repair_outcome `{SimpleITK} (ct : image Q) (rib_path out_path : string)
  (s : pipeline_state) (m : image Z) :
  seg_files s !! rib_path = Some m ->
  (exists e s', call_repair_first_rib ct rib_path out_path s = (inr e, s') /\
                seg_files s' = seg_files s) \/
  (exists o s', call_repair_first_rib ct rib_path out_path s = (inl tt, s') /\
                seg_files s' = <[out_path := o]> (seg_files s) /\ geom o = geom m).
Proof.
  intros Hm. unfold call_repair_first_rib.
  pose proof (repair_first_rib_outcome ct rib_path out_path (World (seg_files s) [])) as Ho.
  pose proof (repair_first_rib_written ct rib_path out_path (World (seg_files s) []) m Hm)
    as Hw.
  destruct (repair_first_rib ct rib_path out_path (World (seg_files s) [])) as [r w].
  cbn [fst snd files] in Ho, Hw.
  destruct r as [[] | e].
  - right. destruct (Hw eq_refl) as [o [Hf Hg]].
    exists o. eexists. split; [reflexivity |]. split; assumption.
  - left. destruct Ho as [[e' [_ Hf]] | [img [Hok _]]]; [| discriminate Hok].
    eexists. eexists. split; [reflexivity | exact Hf].
Qed.

Lemma process_first_rib_outcome `{SimpleITK} `{VolumeReader}
  (ct_path rib_path output_path : string) (s : pipeline_state) (m : image Z) :
  seg_files s !! rib_path = Some m ->
  (exists e s', process_first_rib ct_path rib_path output_path s = (inr e, s') /\
                seg_files s' = seg_files s) \/
  (exists o s' ct, process_first_rib ct_path rib_path output_path s = (inl output_path, s') /\
                   seg_files s' = <[output_path := o]> (seg_files s) /\
                   geom o = geom m /\ ReadImage ct_path = Ok ct).
Proof.
  intros Hm. unfold process_first_rib, say, read_volume. cbn [bind ret pio_monad].
  destruct (ReadImage ct_path) as [ct | e].
  - destruct (call_repair_outcome ct rib_path output_path
                (PipelineState (seg_files s) (console s ++ [ProcessingFirstRib rib_path]))
                m Hm) as [[e [s' [E Hf]]] | [o [s' [E [Hf Hg]]]]]; rewrite E.
    + left. exists e, s'. split; [reflexivity | exact Hf].
    + right. exists o. eexists. exists ct. split; [reflexivity |].
      split; [exact Hf |]. split; [exact Hg | reflexivity].
  - left. eexists. eexists. split; reflexivity.
Qed.














Lemma rib_step_in_place_failure `{SimpleITK} `{VolumeReader}
  (ct_path segmentation_dir output_dir side : string) (s : pipeline_state)
  (m : image Z) (e : pipeline_exn) :
  seg_files s !! path_join segmentation_dir (rib_filename_of side 1) = Some m ->
  path_join output_dir (rib_filename_of side 1)
  = path_join segmentation_dir (rib_filename_of side 1) ->
  fst (process_first_rib ct_path (path_join segmentation_dir (rib_filename_of side 1))
         (path_join segmentation_dir (rib_filename_of side 1)) s) = inr e ->
  exists s',
    rib_step ct_path segmentation_dir output_dir side 1 s
    = (inr (SameFileError (path_join segmentation_dir (rib_filename_of side 1))
              (path_join segmentation_dir (rib_filename_of side 1))), s') /\
    seg_files s' = seg_files s /\
    exists before,
      console s' = before ++ [ErrorProcessingFirstRib (rib_filename_of side 1) e].
Proof.
  intros Hm Hsame Hraise. unfold rib_step. cbv zeta. rewrite Hsame.
  set (rib_path := path_join segmentation_dir (rib_filename_of side 1)) in *.
  unfold path_exists. cbn [bind pio_monad]. rewrite Hm. cbn [negb Nat.eqb].
  unfold try_except. cbn [bind pio_monad].
  destruct (process_first_rib_outcome ct_path rib_path rib_path s m Hm)
    as [[e' [s1 [E Hf]]] | [o [s1 [ct [E _]]]]]; rewrite E in Hraise |- *;
    cbn [fst] in Hraise; [| discriminate Hraise].
  injection Hraise as ->.
  unfold say at 1. unfold copy2. cbn [seg_files]. rewrite Hf, Hm, String.eqb_refl.
  eexists. split; [reflexivity |]. cbn [seg_files console].
  split; [reflexivity |]. eexists. reflexivity.
Qed.

(** Run in place (the output directory is the segmentation directory), the
    loop does not survive a first rib that cannot be repaired: the copy of
    the original in the handler raises [SameFileError], outside any [try],
    and the loop ends at its first rib with the files as they were, the
    other ribs not looked at. *)
Theorem in_place_failure_aborts_rib_loop `{SimpleITK} `{VolumeReader}
  (ct_path segmentation_dir output_dir : string) (s : pipeline_state)
  (m : image Z) (e : pipeline_exn) :
  seg_files s !! path_join segmentation_dir (rib_filename_of "left" 1) = Some m ->
  path_join output_dir (rib_filename_of "left" 1)
  = path_join segmentation_dir (rib_filename_of "left" 1) ->
  fst (process_first_rib ct_path (path_join segmentation_dir (rib_filename_of "left" 1))
         (path_join segmentation_dir (rib_filename_of "left" 1)) s) = inr e ->
  exists s',
    process_ribs ct_path segmentation_dir output_dir s
    = (inr (SameFileError (path_join segmentation_dir (rib_filename_of "left" 1))
              (path_join segmentation_dir (rib_filename_of "left" 1))), s') /\
    seg_files s' = seg_files s /\
    exists before,
      console s' = before ++ [ErrorProcessingFirstRib (rib_filename_of "left" 1) e].
Proof.
  intros Hm Hsame Hraise.
  destruct (rib_step_in_place_failure ct_path segmentation_dir output_dir "left" s m e
              Hm Hsame Hraise) as [s' [E [Hf Hc]]].
  exists s'. split; [| split; assumption].
  unfold process_ribs.
  change (seq 1 12) with (1%nat :: seq 2 11).
  cbn [for_each bind pio_monad]. rewrite E. reflexivity.
Qed.

Lemma in_place_failure_aborts_rib_loop_witness :
  let s := PipelineState (<["seg/rib_left_1.nii.gz" := rib_column]>
                            (<["seg/rib_left_2.nii.gz" := rib_anterior]> ∅)) [] in
  exists s',
    @process_ribs small_volume_filters no_volume_on_disk
      "ct/CF01_resampled.nii.gz" "seg" "seg" s
    = (inr (SameFileError "seg/rib_left_1.nii.gz" "seg/rib_left_1.nii.gz"), s') /\
    seg_files s' = seg_files s /\
    exists before,
      console s'
      = before ++ [ErrorProcessingFirstRib "rib_left_1.nii.gz"
                     (Raised (RuntimeError "unable to read image"))].
Proof.
  intros s.
  exact (@in_place_failure_aborts_rib_loop small_volume_filters no_volume_on_disk
           "ct/CF01_resampled.nii.gz" "seg" "seg" s rib_column
           (Raised (RuntimeError "unable to read image"))
           eq_refl eq_refl eq_refl).
Defined.

(** ** The copy of the other segmentations *)

Lemma copy_other_file_step (segmentation_dir output_dir filename : string)
  (s : pipeline_state) :
  exists s',
    copy_other_file segmentation_dir output_dir filename s = (inl tt, s') /\
    (seg_files s' = seg_files s \/
     (is_other_segmentation filename = true /\
      seg_files s !! path_join output_dir filename = None /\
      exists m,
        seg_files s !! path_join segmentation_dir filename = Some m /\
        seg_files s' = <[path_join output_dir filename := m]> (seg_files s))).
Proof.
  unfold copy_other_file.
  destruct (is_other_segmentation filename) eqn:Hother;
    [| exists s; split; [reflexivity | left; reflexivity]].
  cbv zeta. unfold path_exists. cbn [bind pio_monad].
  destruct (seg_files s !! path_join output_dir filename) as [m0 |] eqn:Hdst; cbn [negb];
    [exists s; split; [reflexivity | left; reflexivity] |].
  unfold try_except, copy2. cbn [bind pio_monad].
  destruct (seg_files s !! path_join segmentation_dir filename) as [m |] eqn:Hsrc.
  - destruct (String.eqb (path_join segmentation_dir filename)
                (path_join output_dir filename)) eqn:Eq.
    + eexists. split; [reflexivity | left; reflexivity].
    + eexists. split; [reflexivity |]. right. cbn [seg_files].
      split; [reflexivity |]. split; [reflexivity |]. exists m. split; reflexivity.
  - eexists. split; [reflexivity | left; reflexivity].
Qed.

(** The last loop of the pipeline returns normally whatever the listing,
    leaves every file that was there as it was (an output already present
    is not overwritten), and a file that appears is the copy of a listed
    segmentation that ends in [.nii.gz], does not start with [rib_] and is
    not the sternum: a rib file outside the 24 names of the rib loop, or a
    segmentation saved as [.nii], reaches the output through neither loop. *)
Theorem other_files_copied_without_overwriting (segmentation_dir output_dir : string)
  (listing : list string) (s : pipeline_state) :
  exists s',
    copy_other_files segmentation_dir output_dir listing s = (inl tt, s') /\
    (forall p m, seg_files s !! p = Some m -> seg_files s' !! p = Some m) /\
    (forall p m, seg_files s !! p = None -> seg_files s' !! p = Some m ->
       exists filename,
         In filename listing /\ p = path_join output_dir filename /\
         endswith filename ".nii.gz" = true /\
         String.prefix "rib_" filename = false /\
         filename <> "sternum.nii.gz"%string /\
         seg_files s' !! path_join segmentation_dir filename = Some m).
Proof.
  unfold copy_other_files. revert s.
  induction listing as [| f listing IH]; intros s.
  - exists s. split; [reflexivity |]. split; [intros p m Hp; exact Hp |].
    intros p m Hn Hs. congruence.
  - destruct (copy_other_file_step segmentation_dir output_dir f s) as [s1 [E1 H1]].
    destruct (IH s1) as [s2 [E2 [Hkeep Hnew]]].
    exists s2. split; [cbn [for_each bind pio_monad]; rewrite E1; exact E2 |].
    destruct H1 as [Hsame | [Hother [Hdst [m1 [Hsrc Hins]]]]].
    + rewrite Hsame in Hkeep, Hnew. split; [exact Hkeep |].
      intros p m Hn Hs. destruct (Hnew p m Hn Hs) as [g [Hg Hrest]].
      exists g. split; [right; exact Hg | exact Hrest].
    + assert (Hold : forall p m, seg_files s !! p = Some m -> seg_files s1 !! p = Some m).
      { intros p m Hp. rewrite Hins, lookup_insert_ne; [exact Hp |].
        intros Eq. subst p. congruence. }
      split; [intros p m Hp; apply Hkeep, Hold, Hp |].
      intros p m Hn Hs.
      destruct (decide (p = path_join output_dir f)) as [-> | Hne].
      * exists f. split; [left; reflexivity |]. split; [reflexivity |].
        unfold is_other_segmentation in Hother.
        apply andb_true_iff in Hother. destruct Hother as [Hext Hno].
        apply negb_true_iff, orb_false_iff in Hno. destruct Hno as [Hrib Hst].
        split; [exact Hext |]. split; [exact Hrib |].
        split; [intros Eq; apply String.eqb_neq in Hst; contradiction |].
        assert (Hm1 : seg_files s1 !! path_join output_dir f = Some m1)
          by (rewrite Hins; apply lookup_insert_eq).
        apply Hkeep in Hm1.
        assert (m = m1) by congruence. subst m.
        apply Hkeep, Hold, Hsrc.
      * assert (Hn1 : seg_files s1 !! p = None)
          by (rewrite Hins, lookup_insert_ne; [exact Hn | congruence]).
        destruct (Hnew p m Hn1 Hs) as [g [Hg Hrest]].
        exists g. split; [right; exact Hg | exact Hrest].
Qed.
